(** * Block-based motion estimation (find_motion.c)

    A shallow embedding of the computational core of [find_motion.c]:
    the 3x3 median filter, the full-search block matcher, the motion-field
    estimator and the statistics reducer with its approximate square root.

    Modelling conventions.
    - A [uint8 *] buffer is a [list byte]; a read or write outside the
      buffer is undefined behaviour in C and is [None] here.
    - C [int] values are integers in [Z].  Signed overflow is undefined
      behaviour in C; the sums computed by [compute_sad] are shown to stay
      far below [INT_MAX] ([compute_sad_total]).  The store of an [int]
      into an [int8] field is written with its wrap-around, and so is the
      subtraction inside [quick_sqrt], which leaves the [int] range only
      for inputs with the sign bit set.
    - C [float] is IEEE-754 binary32 with round-to-nearest-even, given by
      the Standard Library's [SpecFloat] at precision 24 and maximal
      exponent 128; every [float] operation of the source rounds once. *)

From stdpp Require Import base tactics option list numbers sorting.
From Stdlib Require Import ZArith QArith Lia Strings.Byte.
From Stdlib Require Import Floats.SpecFloat.

Local Open Scope Z_scope.

(** ** Constants and data *)

Definition BSIZE : Z := 16.
Definition MSTEP : Z := 8.
Definition INT_MAX : Z := 2147483647.

Definition uint8 := byte.

(** The integer value of a pixel sample (integer promotion of a [uint8]). *)
Definition pix (b : uint8) : Z := Z.of_N (Byte.to_N b).

(** Conversion of an [int] to [int8]: the value modulo 256, sign-extended. *)
Definition int8_of_int (z : Z) : Z := (z + 128) `mod` 256 - 128.

Module MV.
Record t := mk { x : Z; y : Z }.
Definition zero : t := mk 0 0.
End MV.
Abbreviation MVector := MV.t.

(** ** Memory accesses and loops *)

Definition load {A} (buf : list A) (i : Z) : option A :=
  if bool_decide (0 ≤ i) then buf !! Z.to_nat i else None.

Definition store {A} (buf : list A) (i : Z) (v : A) : option (list A) :=
  if bool_decide (0 ≤ i < Z.of_nat (length buf))
  then Some (<[Z.to_nat i := v]> buf) else None.

(** [for (i = lo; i < hi; i++) body], threading the state [s]; the body may
    fault. *)
Fixpoint for_loop {St} (n : nat) (i : Z) (body : Z → St → option St) (s : St)
  : option St :=
  match n with
  | O => Some s
  | S n' => s' ← body i s; for_loop n' (i + 1) body s'
  end.

Definition for_range {St} (lo hi : Z) (body : Z → St → option St) (s : St)
  : option St :=
  for_loop (Z.to_nat (hi - lo)) lo body s.

(** [for (j = hi; j > lo; j--) body]. *)
Fixpoint for_down_loop {St} (n : nat) (j : Z) (body : Z → St → option St)
    (s : St) : option St :=
  match n with
  | O => Some s
  | S n' => s' ← body j s; for_down_loop n' (j - 1) body s'
  end.

Definition for_down {St} (hi lo : Z) (body : Z → St → option St) (s : St)
  : option St :=
  for_down_loop (Z.to_nat (hi - lo)) hi body s.

(** ** The median filter *)

(** [matrix_to_array]: [ptr] is the offset of the centre pixel in [image]. *)
Definition matrix_to_array (pix_array image : list uint8) (ptr width : Z)
  : option (list uint8) :=
  '(pix_array, _) ← for_range (-1) 2 (λ y st,
    for_range (-1) 2 (λ x '(pix_array, idx),
      v ← load image (ptr + x + width * y);
      pix_array ← store pix_array idx v;
      Some (pix_array, idx + 1)) st) (pix_array, 0);
  Some pix_array.

(** The body of the inner loop of [insertion_sort] (lines 169-175). *)
Definition compare_swap (jdx : Z) (pix_array : list uint8)
  : option (list uint8) :=
  a ← load pix_array jdx;
  b ← load pix_array (jdx - 1);
  if bool_decide (pix a < pix b) then
    temp ← load pix_array jdx;
    prev ← load pix_array (jdx - 1);
    pix_array ← store pix_array jdx prev;
    store pix_array (jdx - 1) temp
  else Some pix_array.

Definition insertion_sort (pix_array : list uint8) (size : Z)
  : option (list uint8) :=
  for_range 1 size (λ idx pix_array, for_down idx 0 compare_swap pix_array)
    pix_array.

(** [median3x3].  The local [pix_array] is carried through the loops; its
    initial contents are indeterminate in C and never read, since
    [matrix_to_array] overwrites all nine entries first. *)
Definition median3x3 (image : list uint8) (width height : Z)
  : option (list uint8) :=
  '(image, _) ← for_range 1 (height - 1) (λ row st,
    for_range 1 (width - 1) (λ col '(image, pix_array),
      let ptr := row * width + col in
      pix_array ← matrix_to_array pix_array image ptr width;
      pix_array ← insertion_sort pix_array 9;
      m ← load pix_array 4;
      image ← store image ptr m;
      Some (image, pix_array)) st) (image, replicate 9 "000"%byte);
  Some image.

(** ** The block matcher *)

Definition compute_sad (prev curr : list uint8) (width px py cx cy : Z)
  : option Z :=
  for_range 0 BSIZE (λ y sad,
    for_range 0 BSIZE (λ x sad,
      p ← load prev ((py + y) * width + (px + x));
      c ← load curr ((cy + y) * width + (cx + x));
      Some (sad + Z.abs (pix p - pix c))) sad) 0.

(** [match].  The out-parameters [*x], [*y] are the component [xy] of the
    state: [None] while they hold the caller's indeterminate values, and
    [Some (x, y)] once written.  [match_visit] is the body of the inner
    loop (lines 228-236) on the state [(min_sad, xy)]; the result of
    [match_] is that state after both loops. *)
Definition match_visit (posx posy : Z) (prev curr : list uint8) (width : Z)
    (mvy mvx : Z) (st : Z * option (Z * Z)) : option (Z * option (Z * Z)) :=
  let '(min_sad, xy) := st in
  sad ← compute_sad prev curr width (posx + mvx) (posy + mvy) posx posy;
  if bool_decide (sad ≤ min_sad)
  then Some (sad, Some (mvx, mvy))
  else Some (min_sad, xy).

Definition match_ (xy : option (Z * Z)) (posx posy : Z)
    (prev curr : list uint8) (width : Z) : option (Z * option (Z * Z)) :=
  for_range (- BSIZE) BSIZE (λ mvy st,
    for_range (- BSIZE) BSIZE (match_visit posx posy prev curr width mvy) st)
    (INT_MAX, xy).

(** ** The motion estimator *)

(** [full_search].  Its locals [x], [y] are indeterminate until [match]
    writes them; reading them while indeterminate is a fault.  The two
    field assignments of line 268 are one store of the pair. *)
Definition full_search (mv : list MVector) (prev_image curr_image : list uint8)
    (width height : Z) : option (list MVector) :=
  let nx := width `quot` MSTEP in
  let ny := height `quot` MSTEP in
  '(mv, _) ← for_range 2 (ny - 4) (λ idy st,
    for_range 2 (nx - 4) (λ idx '(mv, xy),
      '(_, xy) ← match_ xy (idx * MSTEP) (idy * MSTEP) prev_image curr_image width;
      '(x, y) ← xy;
      mv ← store mv (idy * nx + idx) (MV.mk (int8_of_int x) (int8_of_int y));
      Some (mv, Some (x, y))) st) (mv, None);
  Some mv.

(** The field allocated and cleared by [main] (lines 99-105). *)
Definition zero_field (width height : Z) : list MVector :=
  replicate (Z.to_nat ((width `quot` MSTEP) * (height `quot` MSTEP))) MV.zero.

(** [estimateMotion]: the zero-initialised field handed to [full_search]. *)
Definition estimateMotion (prev curr : list uint8) (width height : Z)
  : option (list MVector) :=
  full_search (zero_field width height) prev curr width height.

(** ** Single-precision arithmetic *)

Definition float := spec_float.
Definition FLT_MANT_DIG : Z := 24.
Definition FLT_MAX_EXP : Z := 128.

Definition fzero : float := S754_zero false.
Definition fadd : float → float → float := SFadd FLT_MANT_DIG FLT_MAX_EXP.
Definition fsub : float → float → float := SFsub FLT_MANT_DIG FLT_MAX_EXP.
Definition fmul : float → float → float := SFmul FLT_MANT_DIG FLT_MAX_EXP.
Definition fdiv : float → float → float := SFdiv FLT_MANT_DIG FLT_MAX_EXP.
Definition flt : float → float → bool := SFltb.

(** [(float) z] for an [int] [z]. *)
Definition float_of_int (z : Z) : float :=
  binary_normalize FLT_MANT_DIG FLT_MAX_EXP z 0 false.

(** The literals [0.5f] and [1.5f]. *)
Definition f0_5 : float := binary_normalize FLT_MANT_DIG FLT_MAX_EXP 1 (-1) false.
Definition f1_5 : float := binary_normalize FLT_MANT_DIG FLT_MAX_EXP 3 (-1) false.

(** Two's complement reading of the low 32 bits. *)
Definition wrap32 (z : Z) : Z := (z + 2 ^ 31) `mod` 2 ^ 32 - 2 ^ 31.

(** The binary32 encoding of a float, as an unsigned 32-bit pattern.  A NaN
    carries no payload in [spec_float]; it is encoded as the quiet NaN
    [0x7fc00000]. *)
Definition bits_of_float (x : float) : Z :=
  match x with
  | S754_zero s => if s then 2 ^ 31 else 0
  | S754_infinity s => (if s then 2 ^ 31 else 0) + 0x7f800000
  | S754_nan => 0x7fc00000
  | S754_finite s m e =>
      (if s then 2 ^ 31 else 0) +
      (if bool_decide (Z.pos m < 2 ^ 23) then Z.pos m
       else (e + 150) * 2 ^ 23 + (Z.pos m - 2 ^ 23))
  end.

(** The float whose binary32 encoding is the low 32 bits of [b]. *)
Definition float_of_bits (b : Z) : float :=
  let u := b `mod` 2 ^ 32 in
  let s := Z.testbit u 31 in
  let E := (u `div` 2 ^ 23) `mod` 2 ^ 8 in
  let M := u `mod` 2 ^ 23 in
  if bool_decide (E = 0) then
    match M with Zpos m => S754_finite s m (-149) | _ => S754_zero s end
  else if bool_decide (E = 255) then
    (if bool_decide (M = 0) then S754_infinity s else S754_nan)
  else
    match M + 2 ^ 23 with Zpos m => S754_finite s m (E - 150) | _ => S754_nan end.

(** [memcpy] of a float into an [int]. *)
Definition int_of_float_bits (x : float) : Z := wrap32 (bits_of_float x).

(** ** The statistics reducer *)

Definition quick_sqrt (x : float) : float :=
  let xhalf := fmul f0_5 x in
  let i := int_of_float_bits x in
  let i := wrap32 (0x5f375a86 - Z.shiftr i 1) in
  let x := float_of_bits i in
  let x := fmul x (fsub f1_5 (fmul (fmul xhalf x) x)) in
  let x := fmul x (fsub f1_5 (fmul (fmul xhalf x) x)) in
  let x := fmul x (fsub f1_5 (fmul (fmul xhalf x) x)) in
  fdiv (float_of_int 1) x.

(** [compute_statistics]: the result is [(mean, min, max)]. *)
Definition compute_statistics (mv : list MVector) (size : Z)
  : option (float * float * float) :=
  '(_, total, min, max) ← for_range 0 size (λ idx '(length, total, min, max),
    v ← load mv idx;
    let sq := float_of_int (MV.x v * MV.x v + MV.y v * MV.y v) in
    let length := quick_sqrt sq in
    let min := if flt length min then length else min in
    let max := if flt max length then length else max in
    Some (length, fadd total length, min, max))
    (float_of_int 0, float_of_int 0, float_of_int 0, float_of_int 0);
  Some (fdiv total (float_of_int size), min, max).

(** ** The pipeline of [main] (lines 99-131) *)

Definition pipeline (frame_1 frame_2 : list uint8) (width height : Z)
  : option (list MVector * (float * float * float)) :=
  let size := (width `quot` MSTEP) * (height `quot` MSTEP) in
  let mv := replicate (Z.to_nat size) MV.zero in
  frame_1 ← median3x3 frame_1 width height;
  frame_2 ← median3x3 frame_2 width height;
  mv ← full_search mv frame_1 frame_2 width height;
  stats ← compute_statistics mv size;
  Some (mv, stats).

(** ** Vocabulary of the statements *)

(** All 256 reads of a block anchored at [(px, py)] fall inside [buf]. *)
Definition block_in_bounds (buf : list uint8) (width px py : Z) : Prop :=
  ∀ x y, 0 ≤ x < BSIZE → 0 ≤ y < BSIZE →
    0 ≤ (py + y) * width + (px + x) < Z.of_nat (length buf).

(** The 32 x 32 displacements of the search window. *)
Definition candidate (mvx mvy : Z) : Prop :=
  - BSIZE ≤ mvx < BSIZE ∧ - BSIZE ≤ mvy < BSIZE.

Definition search_in_bounds (prev curr : list uint8) (width posx posy : Z)
  : Prop :=
  block_in_bounds curr width posx posy ∧
  ∀ mvx mvy, candidate mvx mvy →
    block_in_bounds prev width (posx + mvx) (posy + mvy).

(** The matching cost of the displacement [(mvx, mvy)] at anchor
    [(posx, posy)], as [match] calls [compute_sad] (line 229). *)
Definition sad_at (prev curr : list uint8) (width posx posy mvx mvy : Z)
  : option Z :=
  compute_sad prev curr width (posx + mvx) (posy + mvy) posx posy.

(** Raster order of the search on displacements [(mvx, mvy)]: [mvy] is the
    outer loop, [mvx] the inner one. *)
Definition raster_lt (a b : Z * Z) : Prop :=
  a.2 < b.2 ∨ (a.2 = b.2 ∧ a.1 < b.1).
Definition raster_le (a b : Z * Z) : Prop :=
  a.2 < b.2 ∨ (a.2 = b.2 ∧ a.1 ≤ b.1).

(** The state of [match] when [(px, py)] is the next candidate to visit. *)
Definition visited_inv (xy0 : option (Z * Z)) (prev curr : list uint8)
    (width posx posy py px : Z) (st : Z * option (Z * Z)) : Prop :=
  (py = -16 ∧ px = -16 ∧ st = (INT_MAX, xy0)) ∨
  (∃ bx by_, st.2 = Some (bx, by_) ∧ candidate bx by_ ∧
     raster_lt (bx, by_) (px, py) ∧
     sad_at prev curr width posx posy bx by_ = Some st.1 ∧
     0 ≤ st.1 ≤ 65280 ∧
     ∀ vx vy, candidate vx vy → raster_lt (vx, vy) (px, py) →
       ∃ s, sad_at prev curr width posx posy vx vy = Some s ∧ st.1 ≤ s ∧
            (s = st.1 → raster_le (vx, vy) (bx, by_))).

Definition mv_in_range (v : MVector) : Prop :=
  -16 ≤ MV.x v ≤ 15 ∧ -16 ≤ MV.y v ≤ 15.

(** The grid cells for which [full_search] computes a vector. *)
Definition computed_cell (nx ny idx idy : Z) : Prop :=
  2 ≤ idx < nx - 4 ∧ 2 ≤ idy < ny - 4.

(** The cells handled before the loops of [full_search] reach
    [(pidx, pidy)]. *)
Definition processed (nx ny pidy pidx idx idy : Z) : Prop :=
  computed_cell nx ny idx idy ∧ (idy < pidy ∨ (idy = pidy ∧ idx < pidx)).

(** The field once the cells in [P] have been handled, [mv0] being the field
    at entry. *)
Definition field_inv (prev curr : list uint8) (width nx : Z)
    (mv0 : list MVector) (P : Z → Z → Prop) (mv : list MVector) : Prop :=
  length mv = length mv0 ∧
  (∀ idx idy, P idx idy →
     ∃ c x y,
       match_ None (idx * MSTEP) (idy * MSTEP) prev curr width
         = Some (c, Some (x, y)) ∧
       candidate x y ∧
       mv !! Z.to_nat (idy * nx + idx) = Some (MV.mk x y)) ∧
  (∀ k : nat, (∀ idx idy, P idx idy → Z.of_nat k ≠ idy * nx + idx) →
     mv !! k = mv0 !! k) ∧
  (∀ k v, mv !! k = Some v → mv0 !! k = Some v ∨ mv_in_range v).

(** ** The median filter as the specification words it *)

Definition byte_le (a b : uint8) : Prop := pix a ≤ pix b.

#[global] Instance byte_le_dec : RelDecision byte_le.
Proof. intros a b. unfold byte_le. apply _. Defined.

Fixpoint foldM {A St} (f : A → St → option St) (l : list A) (s : St)
  : option St :=
  match l with
  | [] => Some s
  | a :: l => s' ← f a s; foldM f l s'
  end.

(** The nine samples around [(row, col)], top-left to bottom-right. *)
Definition neighborhood (image : list uint8) (width row col : Z)
  : option (list uint8) :=
  mapM (λ d : Z * Z, load image ((row + d.1) * width + (col + d.2)))
    [(-1, -1); (-1, 0); (-1, 1); (0, -1); (0, 0); (0, 1); (1, -1); (1, 0); (1, 1)].

(** The fifth smallest of the samples, sorted ascending. *)
Definition median9 (samples : list uint8) : option uint8 :=
  merge_sort byte_le samples !! 4%nat.

(** Rows 1..height-2, columns 1..width-2, row-major, left to right. *)
Definition interior_pixels (width height : Z) : list (Z * Z) :=
  row ← seqZ 1 (height - 2); col ← seqZ 1 (width - 2); [(row, col)].

(** One pixel: its neighbourhood is read from the current buffer. *)
Definition median_pixel (width : Z) (p : Z * Z) (image : list uint8)
  : option (list uint8) :=
  samples ← neighborhood image width p.1 p.2;
  m ← median9 samples;
  store image (p.1 * width + p.2) m.

Definition medianFilter_spec (image : list uint8) (width height : Z)
  : option (list uint8) :=
  foldM (median_pixel width) (interior_pixels width height) image.

(** A pixel of the one-pixel border of a [width] x [height] frame. *)
Definition border_pixel (width height row col : Z) : Prop :=
  0 ≤ row < height ∧ 0 ≤ col < width ∧
  (row = 0 ∨ row = height - 1 ∨ col = 0 ∨ col = width - 1).

(** ** The approximate square root as the specification words it *)

Definition newton_step (x y : float) : float :=
  fmul y (fsub f1_5 (fmul (fmul (fmul f0_5 x) y) y)).

Definition approxSqrt_spec (x : float) : float :=
  let i := int_of_float_bits x in
  let i' := 0x5F375A86 - Z.shiftr i 1 in
  let y := float_of_bits i' in
  fdiv (float_of_int 1) (Nat.iter 3 (newton_step x) y).

(** The rational number a finite float stands for. *)
Definition float_value (f : float) : Q :=
  match f with
  | S754_finite s m e =>
      ((if s then -1 else 1) * inject_Z (Z.pos m) * (2 # 1) ^ e)%Q
  | _ => 0%Q
  end.

(** [r] is positive and within 0.2 percent of the square root of [n]:
    [0.998 * sqrt n <= r <= 1.002 * sqrt n], squared. *)
Definition within_0_2_percent_of_sqrt (r : Q) (n : Z) : Prop :=
  (0 < r ∧ (998 # 1000) ^ 2 * inject_Z n <= r ^ 2 ∧
   r ^ 2 <= (1002 # 1000) ^ 2 * inject_Z n)%Q.

Definition within_0_2_percent_of_sqrt_b (r : Q) (n : Z) : bool :=
  (negb (Qle_bool r 0) &&
   Qle_bool ((998 # 1000) ^ 2 * inject_Z n) (r ^ 2) &&
   Qle_bool (r ^ 2) ((1002 # 1000) ^ 2 * inject_Z n))%Q.

Definition int8_range (z : Z) : Prop := -128 ≤ z ≤ 127.

(** What is checked of the float [x] standing for the integer [sq] and of
    an approximate root [r] of it: [x] is [sq] exactly, [r] is not negative
    and, for [sq] other than 0, within 0.2 percent of the root. *)
Definition magnitude_check (x r : float) (sq : Z) : bool :=
  Qeq_bool (float_value x) (inject_Z sq) &&
  negb (flt r fzero) &&
  (bool_decide (sq = 0) || within_0_2_percent_of_sqrt_b (float_value r) sq).

(** [p] holds of [a * a + b * b] for all [0 <= a <= b < n]. *)
Definition sorted_pairs_check (p : Z → bool) (n : Z) : bool :=
  forallb (λ a, forallb (λ b, p (a * a + b * b)) (seqZ a (n - a))) (seqZ 0 n).

(** ** Two identical 64 x 64 frames of one value *)

(** The field [full_search] produces for them: (15, 15) in the four
    computed cells (2,2), (3,2), (2,3), (3,3) of the 8 x 8 grid. *)
Definition field64 : list MVector :=
  <[27%nat := MV.mk 15 15]> (<[26%nat := MV.mk 15 15]>
  (<[19%nat := MV.mk 15 15]> (<[18%nat := MV.mk 15 15]>
  (replicate 64 MV.zero)))).

(** The statistics of that field: 21.2132... is the approximate root of
    450 = 15 * 15 + 15 * 15, and the mean is a sixteenth of it. *)
Definition max64 : float := S754_finite false 11121828 (-19).
Definition mean64 : float := S754_finite false 11121828 (-23).

(** A 47 x 47 frame: the smallest in which the search window of the block
    anchored at (16, 16) fits. *)
Definition frame47 : list uint8 := replicate 2209 "128"%byte.

(** A 64 x 64 frame of one value. *)
Definition frame64 : list uint8 := replicate 4096 "128"%byte.

(** A small field with entries of magnitude 0, 5 and about 21.2. *)
Definition field3 : list MVector := [MV.mk 0 0; MV.mk 3 (-4); MV.mk 15 15].

(** A 4 x 4 frame with one outlier, for the examples. *)
Definition frame4 : list uint8 :=
  [ "001"; "002"; "003"; "004";
    "005"; "100"; "007"; "008";
    "009"; "010"; "011"; "012";
    "013"; "014"; "015"; "016" ]%byte.

(** The candidates of [match] in the order of the specification: [mvy]
    ascending outside, [mvx] ascending inside. *)
Definition raster_candidates : list (Z * Z) :=
  mvy ← seqZ (-16) 32; mvx ← seqZ (-16) 32; [(mvx, mvy)].

(** The replacement rule in the words of the specification: a candidate
    whose cost is less than or equal to the current best replaces it. *)
Definition replace_rule (prev curr : list uint8) (width posx posy : Z)
    (c : Z * Z) (st : Z * option (Z * Z)) : option (Z * option (Z * Z)) :=
  sad ← sad_at prev curr width posx posy c.1 c.2;
  Some (if bool_decide (sad ≤ st.1) then (sad, Some c) else st).

(** The search of the specification: the rule applied to the candidates in
    raster order, from the largest cost and no displacement. *)
Definition matchSearch_spec (xy : option (Z * Z)) (posx posy : Z)
    (prev curr : list uint8) (width : Z) : option (Z * option (Z * Z)) :=
  foldM (replace_rule prev curr width posx posy) raster_candidates
    (INT_MAX, xy).

(** ** Further vocabulary *)

(** The blocks of [prev] at [(px, py)] and of [curr] at [(cx, cy)] hold the
    same 256 samples. *)
Definition blocks_equal (prev curr : list uint8) (width px py cx cy : Z)
  : Prop :=
  ∀ x y, 0 ≤ x < BSIZE → 0 ≤ y < BSIZE →
    load prev ((py + y) * width + (px + x))
    = load curr ((cy + y) * width + (cx + x)).

(** The pixels of a block already compared when the loops of [compute_sad]
    reach [(x, y)]. *)
Definition compared_before (y x vx vy : Z) : Prop :=
  0 ≤ vx < BSIZE ∧ 0 ≤ vy < BSIZE ∧ (vy < y ∨ (vy = y ∧ vx < x)).

(** The running sum of [compute_sad] when [(x, y)] is the next pixel: it is
    not negative, and it is 0 exactly if all pixels compared so far agree. *)
Definition sad_inv (prev curr : list uint8) (width px py cx cy y x sad : Z)
  : Prop :=
  0 ≤ sad ∧
  (sad = 0 ↔
   ∀ vx vy, compared_before y x vx vy →
     load prev ((py + vy) * width + (px + vx))
     = load curr ((cy + vy) * width + (cx + vx))).

(** Two dark 47 x 47 frames with one bright pixel each: at (21, 21) in
    [curr47] and, displaced by (3, -2), at (24, 19) in [prev47]. *)
Definition curr47 : list uint8 :=
  <[Z.to_nat (21 * 47 + 21) := "255"%byte]> (replicate 2209 "000"%byte).
Definition prev47 : list uint8 :=
  <[Z.to_nat (19 * 47 + 24) := "255"%byte]> (replicate 2209 "000"%byte).

(** What [quick_sqrt] returns for 0: about 2.24e-20, not 0. *)
Definition sqrt0 : float := S754_finite false 13881189 (-89).

(** [r] is positive and within [eps] of the square root of [n], relatively:
    [(1 - eps) * sqrt n <= r <= (1 + eps) * sqrt n], squared. *)
Definition within_of_sqrt (eps r : Q) (n : Z) : Prop :=
  (0 < r ∧ (1 - eps) ^ 2 * inject_Z n <= r ^ 2 ∧
   r ^ 2 <= (1 + eps) ^ 2 * inject_Z n)%Q.

Definition within_of_sqrt_b (eps r : Q) (n : Z) : bool :=
  (negb (Qle_bool r 0) &&
   Qle_bool ((1 - eps) ^ 2 * inject_Z n) (r ^ 2) &&
   Qle_bool (r ^ 2) ((1 + eps) ^ 2 * inject_Z n))%Q.

(** Two parts in ten million. *)
Definition eps_2e7 : Q := 2 # 10000000.

Definition precise_check (r : float) (sq : Z) : bool :=
  bool_decide (sq = 0) || within_of_sqrt_b eps_2e7 (float_value r) sq.

(** ** The field printer *)

From Stdlib Require Import Strings.Ascii.
From stdpp Require Import strings pretty.

Local Open Scope Z_scope.

Definition newline : string := String "010"%char EmptyString.

Fixpoint spaces (n : nat) : string :=
  match n with
  | O => EmptyString
  | S n => String " "%char (spaces n)
  end.

(** [sprintf(stemp, "%d,%d", x, y)] into the 16 bytes of [stemp]: the text
    and its terminating zero have to fit. *)
Definition sprintf_vector (v : MVector) : option string :=
  let stemp := pretty (MV.x v) +:+ "," +:+ pretty (MV.y v) in
  if bool_decide (String.length stemp < 16)%nat then Some stemp else None.

(** [printf("%7s", stemp)]: padded with spaces on the left to seven
    characters, never cut. *)
Definition printf_7s (stemp : string) : string :=
  spaces (7 - String.length stemp) +:+ stemp.

(** [print_motion_vectors]: the text written to the standard output.  The
    pointer [mv] walks the field; it is the position [pos] here. *)
Definition print_motion_vectors (mv : list MVector) (w h : Z)
  : option string :=
  let out :=
    newline +:+ "The motion vector field is as follows:" +:+ newline
    +:+ newline in
  '(out, _) ← for_range 0 h (λ idy st,
    '(out, pos) ← for_range 0 w (λ idx '(out, pos),
      v ← load mv pos;
      stemp ← sprintf_vector v;
      Some (out +:+ printf_7s stemp, pos + 1)) st;
    Some (out +:+ newline, pos)) (out, 0);
  Some (out +:+ newline).

(** The seven-character check on a vector [(x, y)]: the text fits [stemp],
    its field is exactly seven characters wide, and the field starts with a
    space unless both components have two digits and a sign. *)
Definition token_check (x y : Z) : bool :=
  match sprintf_vector (MV.mk x y) with
  | Some stemp =>
      bool_decide (String.length (printf_7s stemp) = 7%nat) &&
      bool_decide (String.get 0 (printf_7s stemp) = Some " "%char
                   ↔ ¬ (x ≤ -10 ∧ y ≤ -10))
  | None => false
  end.

(** [p] holds of every pair of displacement components in [-16, 15]. *)
Definition displacement_pairs_check (p : Z → Z → bool) : bool :=
  forallb (λ x, forallb (λ y, p x y) (seqZ (-16) 32)) (seqZ (-16) 32).

(** [p] holds of every [int8] value. *)
Definition int8_check (p : Z → bool) : bool := forallb p (seqZ (-128) 256).

(** The position and the length of the output when the loops of
    [print_motion_vectors] reach the cell [(idx, idy)] of a [w]-wide
    field whose cells all take seven characters. *)
Definition print_inv (w idy idx : Z) (st : string * Z) : Prop :=
  st.2 = idy * w + idx ∧
  Z.of_nat (String.length st.1) = 41 + idy * (7 * w + 1) + 7 * idx.

(** ** The layout of the printed field *)

(** The 41 characters written before the first row (line 279). *)
Definition header : string :=
  newline +:+ "The motion vector field is as follows:" +:+ newline
  +:+ newline.

(** The field of one vector: its text [x,y] right-aligned in seven
    characters. *)
Definition cell_text (v : MVector) : string :=
  printf_7s (pretty (MV.x v) +:+ "," +:+ pretty (MV.y v)).

Definition concat_strings (l : list string) : string :=
  foldr String.append EmptyString l.

(** The vectors of row [idy] of a [w]-wide field, left to right. *)
Definition field_row (mv : list MVector) (w idy : Z) : list MVector :=
  take (Z.to_nat w) (drop (Z.to_nat (idy * w)) mv).

(** The text of row [idy], without its newline. *)
Definition row_text (mv : list MVector) (w idy : Z) : string :=
  concat_strings (cell_text <$> field_row mv w idy).

(** The whole text: the header, the [h] rows, each closed by a newline,
    and a last newline. *)
Definition table_text (mv : list MVector) (w h : Z) : string :=
  header
  +:+ concat_strings ((λ idy, row_text mv w idy +:+ newline) <$> seqZ 0 h)
  +:+ newline.

(** No newline inside a text. *)
Fixpoint newline_free (s : string) : bool :=
  match s with
  | EmptyString => true
  | String c s => negb (Ascii.eqb c "010"%char) && newline_free s
  end.

(** The state of the printer when the loops reach the cell [(idx, idy)]:
    the rows above are written, and the first [idx] fields of row [idy]. *)
Definition table_inv (mv : list MVector) (w idy idx : Z) (st : string * Z)
  : Prop :=
  st.2 = idy * w + idx ∧
  st.1 = header
         +:+ concat_strings
               ((λ idy, row_text mv w idy +:+ newline) <$> seqZ 0 idy)
         +:+ concat_strings
               (cell_text <$> take (Z.to_nat idx)
                                (drop (Z.to_nat (idy * w)) mv)).

(** * Proofs *)

(** ** Loop rules *)

Lemma for_loop_inv {St} (I : Z → St → Prop) body n i (s : St) :
  I i s →
  (∀ j t, i ≤ j < i + Z.of_nat n → I j t →
     ∃ t', body j t = Some t' ∧ I (j + 1) t') →
  ∃ s', for_loop n i body s = Some s' ∧ I (i + Z.of_nat n) s'.
Proof.
  revert i s. induction n as [|n IH]; intros i s Hi Hstep.
  - exists s. split; [done|]. by replace (i + Z.of_nat 0) with i by lia.
  - destruct (Hstep i s) as (t & Hb & Ht); [lia|done|].
    destruct (IH (i + 1) t) as (s' & Hl & Hs'); [done| |].
    + intros j u Hj. apply Hstep. lia.
    + exists s'. cbn [for_loop]. rewrite Hb. cbn [mbind option_bind].
      split; [done|].
      by replace (i + Z.of_nat (S n)) with (i + 1 + Z.of_nat n) by lia.
Qed.

Lemma for_range_empty {St} body lo hi (s : St) :
  hi ≤ lo → for_range lo hi body s = Some s.
Proof.
  intros H. unfold for_range. by replace (Z.to_nat (hi - lo)) with O by lia.
Qed.

Lemma for_range_inv {St} (I : Z → St → Prop) body lo hi (s : St) :
  lo ≤ hi →
  I lo s →
  (∀ j t, lo ≤ j < hi → I j t → ∃ t', body j t = Some t' ∧ I (j + 1) t') →
  ∃ s', for_range lo hi body s = Some s' ∧ I hi s'.
Proof.
  intros Hle Hi Hstep. unfold for_range.
  destruct (for_loop_inv I body (Z.to_nat (hi - lo)) lo s) as (s' & ? & Hs');
    [done| |].
  - intros j t Hj. apply Hstep. lia.
  - exists s'. split; [done|].
    by replace (lo + Z.of_nat (Z.to_nat (hi - lo))) with hi in Hs' by lia.
Qed.

Lemma for_range_inv_max {St} (I : Z → St → Prop) body lo hi (s : St) :
  I lo s →
  (∀ j t, lo ≤ j < hi → I j t → ∃ t', body j t = Some t' ∧ I (j + 1) t') →
  ∃ s', for_range lo hi body s = Some s' ∧ I (lo `max` hi) s'.
Proof.
  intros Hi Hstep. destruct (decide (lo ≤ hi)).
  - replace (lo `max` hi) with hi by lia. by apply for_range_inv.
  - replace (lo `max` hi) with lo by lia. exists s.
    split; [|done]. apply for_range_empty. lia.
Qed.

(** ** Memory accesses *)

Lemma load_Some {A} (buf : list A) i :
  0 ≤ i < Z.of_nat (length buf) → ∃ v, load buf i = Some v.
Proof.
  intros H. unfold load. rewrite bool_decide_eq_true_2 by lia.
  apply lookup_lt_is_Some. lia.
Qed.

Lemma store_Some {A} (buf : list A) i v :
  0 ≤ i < Z.of_nat (length buf) → store buf i v = Some (<[Z.to_nat i := v]> buf).
Proof. intros H. unfold store. by rewrite bool_decide_eq_true_2. Qed.

Lemma pix_range b : 0 ≤ pix b ≤ 255.
Proof. unfold pix. pose proof (Byte.to_N_bounded b). lia. Qed.

Lemma int8_of_int_id z : -128 ≤ z ≤ 127 → int8_of_int z = z.
Proof. intros H. unfold int8_of_int. rewrite Z.mod_small; lia. Qed.

(** C division truncates toward zero. *)
Lemma quot_MSTEP_bound w q :
  w `quot` MSTEP = q → 0 < q → 8 * q ≤ w.
Proof.
  unfold MSTEP. intros <- Hq. destruct (decide (0 ≤ w)).
  - rewrite Z.quot_div_nonneg by lia.
    pose proof (Z.mul_div_le w 8). lia.
  - exfalso. replace w with (- - w) in Hq by lia.
    rewrite Z.quot_opp_l in Hq by lia.
    rewrite Z.quot_div_nonneg in Hq by lia.
    pose proof (Z.div_pos (- w) 8). lia.
Qed.

(** ** [compute_sad] *)

(** In-bounds blocks: [compute_sad] returns, and its sum of 256 absolute
    byte differences fits an [int] with room to spare. *)
Lemma compute_sad_total prev curr width px py cx cy :
  block_in_bounds prev width px py →
  block_in_bounds curr width cx cy →
  ∃ s, compute_sad prev curr width px py cx cy = Some s ∧ 0 ≤ s ≤ 65280.
Proof.
  intros Hp Hc. unfold compute_sad.
  match goal with |- context [for_range ?lo ?hi ?body ?s] =>
    destruct (for_range_inv (λ y sad, 0 ≤ sad ≤ y * 16 * 255) body lo hi s)
      as (s' & Hs & Hr); [unfold BSIZE; lia|lia| |]
  end.
  - intros y sad Hy Hsad.
    match goal with |- context [for_range ?lo ?hi ?body ?s] =>
      destruct (for_range_inv (λ x t, 0 ≤ t ≤ y * 16 * 255 + x * 255)
                  body lo hi s)
        as (t & Ht & Hr); [unfold BSIZE; lia|lia| |]
    end.
    + intros x t Hx Ht.
      destruct (load_Some prev ((py + y) * width + (px + x))) as [p ->];
        [by apply Hp|].
      destruct (load_Some curr ((cy + y) * width + (cx + x))) as [c ->];
        [by apply Hc|].
      cbn [mbind option_bind]. eexists; split; [done|].
      pose proof (pix_range p). pose proof (pix_range c). lia.
    + exists t. split; [done|]. unfold BSIZE in Hr. lia.
  - exists s'. split; [done|]. unfold BSIZE in Hr. lia.
Qed.

(** ** [match] *)

Ltac raster :=
  unfold candidate, raster_lt, raster_le, BSIZE in *; cbn [fst snd] in *; lia.

Section match_proof.
Context (xy0 : option (Z * Z)) (posx posy : Z) (prev curr : list uint8)
        (width : Z).
Hypothesis Hvalid : search_in_bounds prev curr width posx posy.

Lemma sad_at_total mvx mvy :
  candidate mvx mvy →
  ∃ s, sad_at prev curr width posx posy mvx mvy = Some s ∧ 0 ≤ s ≤ 65280.
Proof.
  intros Hc. destruct Hvalid as [Hcur Hprev].
  exact (compute_sad_total _ _ _ _ _ _ _ (Hprev _ _ Hc) Hcur).
Qed.

Lemma match_inner_step mvy mvx st :
  candidate mvx mvy →
  visited_inv xy0 prev curr width posx posy mvy mvx st →
  ∃ st', match_visit posx posy prev curr width mvy mvx st = Some st' ∧
         visited_inv xy0 prev curr width posx posy mvy (mvx + 1) st'.
Proof.
  intros Hc Hinv. destruct st as [m xy]. unfold match_visit.
  destruct (sad_at_total mvx mvy Hc) as (s & Hs & Hrange).
  fold (sad_at prev curr width posx posy mvx mvy).
  rewrite Hs. cbn [mbind option_bind].
  case_bool_decide as Hle.
  - eexists; split; [done|]. right. exists mvx, mvy. cbn [fst snd].
    split_and!; [done|done|raster|done|lia|lia|].
    intros vx vy Hv Hlt.
    destruct (decide (vx = mvx ∧ vy = mvy)) as [[-> ->]|Hne].
    { exists s. split_and!; [done|lia|]. intros _. raster. }
    destruct Hinv as [(-> & -> & _)|(bx & by_ & _ & _ & _ & _ & _ & Hall)].
    { exfalso. raster. }
    destruct (Hall vx vy Hv) as (s' & Hs' & Hge & _); [raster|].
    exists s'. cbn [fst snd] in *. split_and!; [done|lia|].
    intros _. raster.
  - destruct Hinv as [(_ & _ & [= -> ->])|
      (bx & by_ & Hxy & Hb & Hblt & Hbs & Hm & Hall)].
    { exfalso. unfold INT_MAX in Hle. lia. }
    eexists; split; [done|]. right. exists bx, by_. cbn [fst snd] in *.
    split_and!; [done|done|raster|done|lia|lia|].
    intros vx vy Hv Hlt.
    destruct (decide (vx = mvx ∧ vy = mvy)) as [[-> ->]|Hne].
    { exists s. split_and!; [done|lia|lia]. }
    apply Hall; [done|]. raster.
Qed.

Lemma match_outer_step mvy st :
  - BSIZE ≤ mvy < BSIZE →
  visited_inv xy0 prev curr width posx posy mvy (-16) st →
  ∃ st', for_range (- BSIZE) BSIZE
           (match_visit posx posy prev curr width mvy) st = Some st' ∧
         visited_inv xy0 prev curr width posx posy (mvy + 1) (-16) st'.
Proof.
  intros Hy Hinv.
  destruct (for_range_inv (visited_inv xy0 prev curr width posx posy mvy)
    (match_visit posx posy prev curr width mvy) (- BSIZE) BSIZE st)
    as (st' & Hrun & Hend); [unfold BSIZE; lia|done| |].
  - intros mvx t Hx Ht. by apply match_inner_step.
  - exists st'. split; [done|]. clear Hrun Hinv.
    destruct Hend as [(_ & Hpx & _)|(bx & by_ & ? & Hb & Hblt & ? & ? & Hall)].
    { unfold BSIZE in Hpx. lia. }
    right. exists bx, by_.
    split_and!; [done|done|raster|done|lia|lia|].
    intros vx vy Hv Hlt. apply Hall; [done|]. raster.
Qed.

(** [match] on in-bounds input: it returns, the displacement it reports is
    a candidate whose SAD is the reported cost, no candidate has a smaller
    SAD, and every candidate with the same SAD precedes it (or is it) in
    raster order. *)
Lemma match_spec :
  ∃ c bx by_,
    match_ xy0 posx posy prev curr width = Some (c, Some (bx, by_)) ∧
    candidate bx by_ ∧
    sad_at prev curr width posx posy bx by_ = Some c ∧ 0 ≤ c ≤ 65280 ∧
    ∀ vx vy, candidate vx vy →
      ∃ s, sad_at prev curr width posx posy vx vy = Some s ∧ c ≤ s ∧
           (s = c → raster_le (vx, vy) (bx, by_)).
Proof.
  unfold match_.
  match goal with |- context [for_range ?lo ?hi ?body ?s] =>
    destruct (for_range_inv
      (λ mvy, visited_inv xy0 prev curr width posx posy mvy (-16))
      body lo hi s)
      as ([c xy] & Hrun & Hend); [unfold BSIZE; lia|by left| |]
  end.
  - intros mvy t Hy Ht. by apply match_outer_step.
  - destruct Hend as [(Hpy & _)|(bx & by_ & Hxy & Hb & _ & Hs & Hc & Hall)].
    { unfold BSIZE in Hpy. lia. }
    cbn [fst snd] in Hxy, Hs, Hc, Hall. subst xy. exists c, bx, by_.
    split; [exact Hrun|]. clear Hrun.
    split_and!; [done|done|lia|lia|].
    intros vx vy Hv. apply Hall; [done|]. raster.
Qed.
End match_proof.

(** The result of [match] does not depend on what the out-parameters held. *)
Lemma match_indep xy0 xy1 posx posy prev curr width :
  search_in_bounds prev curr width posx posy →
  match_ xy0 posx posy prev curr width = match_ xy1 posx posy prev curr width.
Proof.
  intros Hv.
  destruct (match_spec xy0 _ _ _ _ _ Hv) as (c & bx & by_ & -> & Hb & Hs & _ & Hall).
  destruct (match_spec xy1 _ _ _ _ _ Hv)
    as (c' & bx' & by' & -> & Hb' & Hs' & _ & Hall').
  destruct (Hall _ _ Hb') as (s & Hs1 & Hle & Htie).
  destruct (Hall' _ _ Hb) as (s' & Hs2 & Hle' & Htie').
  assert (s = c') by congruence. assert (s' = c) by congruence. subst s s'.
  assert (c = c') as <- by lia.
  specialize (Htie eq_refl). specialize (Htie' eq_refl).
  repeat f_equal; raster.
Qed.

(** If every candidate has SAD 0 the last one visited, (15, 15), wins. *)
Lemma match_all_zero xy0 posx posy prev curr width :
  search_in_bounds prev curr width posx posy →
  (∀ vx vy, candidate vx vy →
     sad_at prev curr width posx posy vx vy = Some 0) →
  match_ xy0 posx posy prev curr width = Some (0, Some (15, 15)).
Proof.
  intros Hv Hz.
  destruct (match_spec xy0 _ _ _ _ _ Hv) as (c & bx & by_ & -> & Hb & Hs & _ & Hall).
  rewrite (Hz _ _ Hb) in Hs. injection Hs as <-.
  destruct (Hall 15 15) as (s & Hs & _ & Htie); [raster|].
  rewrite Hz in Hs by raster. injection Hs as <-.
  specialize (Htie eq_refl). repeat f_equal; raster.
Qed.

(** ** [full_search] *)

(** Row-major indexing of a grid of [nx] columns. *)
Lemma cell_index_inj (nx i j i' j' : Z) :
  0 ≤ i < nx → 0 ≤ i' < nx → j * nx + i = j' * nx + i' → i = i' ∧ j = j'.
Proof. intros Hi Hi' Heq. assert (j = j') by nia. subst. lia. Qed.

Lemma cell_index_range (nx ny idx idy : Z) :
  0 ≤ idx < nx → 0 ≤ idy < ny → 0 ≤ idy * nx + idx < nx * ny.
Proof. intros Hx Hy. nia. Qed.

Section full_search_proof.
Context (prev curr : list uint8) (width height : Z).
Hypothesis Hprev : Z.of_nat (length prev) = width * height.
Hypothesis Hcurr : Z.of_nat (length curr) = width * height.

Lemma frame_block_in_bounds buf X Y :
  Z.of_nat (length buf) = width * height →
  0 ≤ X → X + 16 ≤ width → 0 ≤ Y → Y + 16 ≤ height →
  block_in_bounds buf width X Y.
Proof.
  intros Hlen HX HX' HY HY' x y Hx Hy. unfold BSIZE in *.
  rewrite Hlen. split; [nia|].
  assert ((Y + y) * width + (X + x) < (Y + y) * width + width) by lia.
  assert ((Y + y + 1) * width ≤ height * width) by nia.
  lia.
Qed.

(** The margins of the grid keep every search window inside the frames. *)
Lemma grid_search_in_bounds idx idy :
  computed_cell (width `quot` MSTEP) (height `quot` MSTEP) idx idy →
  search_in_bounds prev curr width (idx * MSTEP) (idy * MSTEP).
Proof.
  intros [Hx Hy].
  assert (8 * (width `quot` MSTEP) ≤ width)
    by (apply quot_MSTEP_bound; [done|lia]).
  assert (8 * (height `quot` MSTEP) ≤ height)
    by (apply quot_MSTEP_bound; [done|lia]).
  change (idx * MSTEP) with (idx * 8). change (idy * MSTEP) with (idy * 8).
  split.
  - apply frame_block_in_bounds; [done|lia..].
  - intros mvx mvy [Hmx Hmy]. unfold BSIZE in *.
    apply frame_block_in_bounds; [done|lia..].
Qed.

Context (nx ny : Z).
Hypothesis Hnx : nx = width `quot` MSTEP.
Hypothesis Hny : ny = height `quot` MSTEP.

Context (mv0 : list MVector).
Hypothesis Hlen : length mv0 = Z.to_nat (nx * ny).

Lemma field_inv_ext P Q mv :
  (∀ idx idy, P idx idy ↔ Q idx idy) →
  field_inv prev curr width nx mv0 P mv →
  field_inv prev curr width nx mv0 Q mv.
Proof.
  intros HPQ (Hl & Hc & Hu & Hr). split_and!; [done| | |done].
  - intros idx idy HQ. apply Hc. by apply HPQ.
  - intros k Hk. apply Hu. intros idx idy HP. apply Hk. by apply HPQ.
Qed.

Lemma full_search_cell idy idx mv xy :
  computed_cell nx ny idx idy →
  field_inv prev curr width nx mv0 (processed nx ny idy idx) mv →
  ∃ st',
    ('(_, xy) ← match_ xy (idx * MSTEP) (idy * MSTEP) prev curr width;
     '(x, y) ← xy;
     mv ← store mv (idy * nx + idx) (MV.mk (int8_of_int x) (int8_of_int y));
     Some (mv, Some (x, y))) = Some st' ∧
    field_inv prev curr width nx mv0 (processed nx ny idy (idx + 1)) st'.1.
Proof.
  intros Hcell (Hl & Hc & Hu & Hr).
  assert (search_in_bounds prev curr width (idx * MSTEP) (idy * MSTEP)) as Hv
    by (apply grid_search_in_bounds; by subst nx ny).
  rewrite (match_indep xy None) by done.
  destruct (match_spec None _ _ _ _ _ Hv) as (c & x & y & Hm & Hxy & _).
  rewrite Hm. cbn [mbind option_bind].
  assert (0 ≤ idx < nx ∧ 0 ≤ idy < ny) as [Hx Hy]
    by (unfold computed_cell in Hcell; lia).
  pose proof (cell_index_range nx ny idx idy Hx Hy) as Hk.
  rewrite store_Some by lia. cbn [mbind option_bind].
  rewrite !int8_of_int_id by raster.
  eexists; split; [done|]. cbn [fst].
  split_and!.
  - by rewrite length_insert.
  - intros i j [Hij Hbefore].
    destruct (decide (i = idx ∧ j = idy)) as [[-> ->]|Hne].
    + exists c, x, y. split_and!; [done|done|].
      apply list_lookup_insert_eq. lia.
    + destruct (Hc i j) as (c' & x' & y' & ? & ? & Hlk).
      { split; [done|]. lia. }
      exists c', x', y'. split_and!; [done|done|].
      rewrite list_lookup_insert_ne; [done|].
      unfold computed_cell in Hij.
      assert (0 ≤ j * nx + i) by nia.
      intros Heq. apply Hne. apply (cell_index_inj nx i j idx idy); lia.
  - intros k Hk'. rewrite list_lookup_insert_ne.
    + apply Hu. intros i j [Hij Hb]. apply Hk'. split; [done|]. lia.
    + intros <-. apply (Hk' idx idy); [split; [done|lia]|lia].
  - intros k v Hlk. destruct (decide (k = Z.to_nat (idy * nx + idx))) as [->|].
    + rewrite list_lookup_insert_eq in Hlk by lia. injection Hlk as <-.
      right. unfold mv_in_range. cbn. raster.
    + rewrite list_lookup_insert_ne in Hlk by done. by apply Hr.
Qed.

Lemma full_search_row idy st :
  2 ≤ idy < ny - 4 →
  field_inv prev curr width nx mv0 (processed nx ny idy 2) st.1 →
  ∃ st',
    for_range 2 (nx - 4) (λ idx '(mv, xy),
      '(_, xy) ← match_ xy (idx * MSTEP) (idy * MSTEP) prev curr width;
      '(x, y) ← xy;
      mv ← store mv (idy * nx + idx) (MV.mk (int8_of_int x) (int8_of_int y));
      Some (mv, Some (x, y))) st = Some st' ∧
    field_inv prev curr width nx mv0 (processed nx ny (idy + 1) 2) st'.1.
Proof.
  intros Hy Hinv.
  match goal with |- context [for_range ?lo ?hi ?body ?s] =>
    destruct (for_range_inv_max
      (λ idx (st : list MVector * option (Z * Z)),
         field_inv prev curr width nx mv0 (processed nx ny idy idx) st.1)
      body lo hi s) as (st' & Hrun & Hend);
      [exact Hinv| |exists st'; split; [exact Hrun|]]
  end.
  - intros idx [mv xy] Hx Hi. apply full_search_cell; [|done].
    unfold computed_cell. lia.
  - clear Hrun. revert Hend. apply field_inv_ext.
    intros i j. unfold processed, computed_cell. lia.
Qed.

(** [full_search] on frames of the declared size and a field of [nx * ny]
    entries: it returns, every computed cell holds the displacement [match]
    reports at its anchor, and every other entry is as it was. *)
Lemma full_search_spec :
  ∃ mv, full_search mv0 prev curr width height = Some mv ∧
        field_inv prev curr width nx mv0 (computed_cell nx ny) mv.
Proof.
  unfold full_search. rewrite <- Hnx, <- Hny.
  match goal with |- context [for_range ?lo ?hi ?body ?s] =>
    destruct (for_range_inv_max
      (λ idy (st : list MVector * option (Z * Z)),
         field_inv prev curr width nx mv0 (processed nx ny idy 2) st.1)
      body lo hi s)
      as ([mv xy] & Hrun & Hend);
      [| |rewrite Hrun; exists mv; split; [done|]]
  end.
  - cbn [fst]. split_and!; [done| |done|by left].
    intros i j [Hc ?]. unfold computed_cell in Hc. lia.
  - intros idy st Hy Hi. apply full_search_row; [lia|done].
  - clear Hrun. revert Hend. cbn [fst]. apply field_inv_ext.
    intros i j. unfold processed, computed_cell. lia.
Qed.
End full_search_proof.

Lemma length_zero_field width height :
  length (zero_field width height)
  = Z.to_nat ((width `quot` MSTEP) * (height `quot` MSTEP)).
Proof. unfold zero_field. apply length_replicate. Qed.

Lemma zero_field_lookup width height k v :
  zero_field width height !! k = Some v → v = MV.zero.
Proof. unfold zero_field. intros [-> _]%lookup_replicate. done. Qed.

(** The inner loop of [full_search] does nothing on a grid of at most six
    columns. *)
Lemma for_range_const {St} (body : Z → St → option St) lo hi (s : St) :
  (∀ j t, lo ≤ j < hi → body j t = Some t) →
  for_range lo hi body s = Some s.
Proof.
  intros Hb.
  destruct (for_range_inv_max (λ _ t, t = s) body lo hi s) as (s' & -> & ->);
    [done| |done].
  intros j t Hj ->. exists s. split; [by apply Hb|done].
Qed.

(** ** [insertion_sort] *)

Lemma pix_inj a b : pix a = pix b → a = b.
Proof.
  unfold pix. intros H. apply (inj Z.of_N) in H.
  pose proof (Byte.of_to_N a) as Ha. pose proof (Byte.of_to_N b) as Hb.
  rewrite H in Ha. congruence.
Qed.

#[global] Instance byte_le_trans : Transitive byte_le.
Proof. intros a b c. unfold byte_le. lia. Qed.

#[global] Instance byte_le_total : Total byte_le.
Proof. intros a b. unfold byte_le. lia. Qed.

#[global] Instance byte_le_antisymm : AntiSymm (=) byte_le.
Proof. intros a b. unfold byte_le. intros. apply pix_inj. lia. Qed.

Lemma load_middle {A} (l : list A) x r :
  load (l ++ x :: r) (Z.of_nat (length l)) = Some x.
Proof.
  unfold load. rewrite bool_decide_eq_true_2 by lia.
  rewrite Nat2Z.id. by apply list_lookup_middle.
Qed.

Lemma store_middle {A} (l : list A) x r v :
  store (l ++ x :: r) (Z.of_nat (length l)) v = Some (l ++ v :: r).
Proof.
  rewrite store_Some by (rewrite length_app; cbn [length]; lia).
  rewrite Nat2Z.id. f_equal.
  replace (length l) with (length l + 0)%nat at 1 by lia.
  by rewrite insert_app_r.
Qed.

(** One compare-and-swap on the adjacent pair [v], [x]. *)
Lemma compare_swap_middle l v x r :
  compare_swap (Z.of_nat (length l) + 1) (l ++ v :: x :: r)
  = Some (if bool_decide (pix x < pix v)
          then l ++ x :: v :: r else l ++ v :: x :: r).
Proof.
  unfold compare_swap.
  replace (Z.of_nat (length l) + 1 - 1) with (Z.of_nat (length l)) by lia.
  assert (∀ y z, load (l ++ y :: z :: r) (Z.of_nat (length l) + 1) = Some z)
    as Hhi.
  { intros y z. replace (l ++ y :: z :: r) with ((l ++ [y]) ++ z :: r)
      by by rewrite <- app_assoc.
    replace (Z.of_nat (length l) + 1) with (Z.of_nat (length (l ++ [y])))
      by (rewrite length_app; cbn [length]; lia).
    apply load_middle. }
  rewrite Hhi, load_middle. cbn [mbind option_bind].
  case_bool_decide; [|done].
  cbn [mbind option_bind].
  replace (l ++ v :: x :: r) with ((l ++ [v]) ++ x :: r)
    by by rewrite <- app_assoc.
  replace (Z.of_nat (length l) + 1) with (Z.of_nat (length (l ++ [v])))
    by (rewrite length_app; cbn [length]; lia).
  rewrite store_middle. cbn [mbind option_bind].
  rewrite <- app_assoc. cbn [app]. apply store_middle.
Qed.

(** The inner loop sinks the element after a sorted prefix into place. *)
Lemma bubble_down l : ∀ x r,
  StronglySorted byte_le l →
  ∃ l1, for_down_loop (length l) (Z.of_nat (length l)) compare_swap
          (l ++ x :: r) = Some (l1 ++ r) ∧
        StronglySorted byte_le l1 ∧ l1 ≡ₚ l ++ [x].
Proof.
  induction l as [|v l IH] using rev_ind; intros x r Hs.
  - exists [x]. split_and!; [done|repeat constructor|done].
  - apply StronglySorted_app in Hs as (Hlv & Hl & _).
    rewrite length_app. cbn [length]. rewrite Nat.add_1_r.
    cbn [for_down_loop].
    replace (Z.of_nat (S (length l))) with (Z.of_nat (length l) + 1) by lia.
    rewrite <- app_assoc. cbn [app].
    rewrite compare_swap_middle. cbn [mbind option_bind].
    replace (Z.of_nat (length l) + 1 - 1) with (Z.of_nat (length l)) by lia.
    case_bool_decide as Hlt.
    + destruct (IH x (v :: r) Hl) as (l1 & -> & Hs1 & Hp1).
      exists (l1 ++ [v]). split_and!.
      * by rewrite <- app_assoc.
      * apply StronglySorted_app_2; [|done|repeat constructor].
        intros x1 x2 Hx1 ->%list_elem_of_singleton.
        rewrite Hp1 in Hx1. apply elem_of_app in Hx1 as [Hx1|Hx1].
        -- apply Hlv; [done|]. by apply list_elem_of_singleton.
        -- apply list_elem_of_singleton in Hx1 as ->. unfold byte_le. lia.
      * rewrite Hp1. rewrite <- !app_assoc. apply Permutation_app_head.
        apply perm_swap.
    + destruct (IH v (x :: r) Hl) as (l1 & -> & Hs1 & Hp1).
      exists (l1 ++ [x]). split_and!.
      * by rewrite <- app_assoc.
      * apply StronglySorted_app_2; [|done|repeat constructor].
        intros x1 x2 Hx1 ->%list_elem_of_singleton.
        assert (byte_le v x) by (unfold byte_le; lia).
        rewrite Hp1 in Hx1. apply elem_of_app in Hx1 as [Hx1|Hx1].
        -- trans v; [|done]. apply Hlv; [done|].
           by apply list_elem_of_singleton.
        -- by apply list_elem_of_singleton in Hx1 as ->.
      * by rewrite Hp1.
Qed.

(** [insertion_sort] on the whole array: it returns the array sorted. *)
Lemma insertion_sort_sorts a :
  ∃ a', insertion_sort a (Z.of_nat (length a)) = Some a' ∧
        StronglySorted byte_le a' ∧ a' ≡ₚ a.
Proof.
  destruct a as [|x0 a].
  { exists []. split_and!; [done|constructor|done]. }
  unfold insertion_sort.
  match goal with |- context [for_range ?lo ?hi ?body ?s] =>
    destruct (for_range_inv
      (λ idx t, ∃ l r, t = l ++ r ∧ Z.of_nat (length l) = idx ∧
                       StronglySorted byte_le l ∧ t ≡ₚ x0 :: a)
      body lo hi s) as (a' & Hrun & l & r & -> & Hlen & Hs & Hp)
  end.
  - cbn [length]. lia.
  - exists [x0], a. split_and!; [done|done|repeat constructor|done].
  - intros idx t Hidx (l & r & -> & Hlen & Hs & Hp).
    apply Permutation_length in Hp as Hpl. rewrite length_app in Hpl.
    destruct r as [|x r]; [cbn [length] in *; lia|].
    unfold for_down. replace (Z.to_nat (idx - 0)) with (length l) by lia.
    rewrite <- Hlen.
    destruct (bubble_down l x r Hs) as (l1 & -> & Hs1 & Hp1).
    eexists; split; [done|]. exists l1, r. split_and!; [done| |done|].
    + apply Permutation_length in Hp1. rewrite Hp1, length_app.
      cbn [length]. lia.
    + rewrite <- Hp, Hp1, <- app_assoc. done.
  - exists (l ++ r). split; [done|].
    apply Permutation_length in Hp as Hpl. rewrite length_app in Hpl.
    assert (r = []) as -> by (destruct r; [done|cbn [length] in *; lia]).
    rewrite app_nil_r in *. done.
Qed.

(** It computes what any ascending sort of the samples computes. *)
Lemma insertion_sort_merge_sort a :
  insertion_sort a (Z.of_nat (length a)) = Some (merge_sort byte_le a).
Proof.
  destruct (insertion_sort_sorts a) as (a' & -> & Hs & Hp). f_equal.
  apply (StronglySorted_unique byte_le); [done| |].
  - apply StronglySorted_merge_sort; apply _.
  - by rewrite merge_sort_Permutation.
Qed.

(** ** [median3x3] *)

Lemma matrix_to_array_neighborhood pa image width row col :
  length pa = 9%nat →
  matrix_to_array pa image (row * width + col) width
  = neighborhood image width row col.
Proof.
  intros Hlen.
  do 9 (destruct pa as [|? pa]; [discriminate Hlen|]).
  destruct pa; [clear Hlen|discriminate Hlen].
  unfold neighborhood. cbn [mapM fst snd].
  replace ((row + -1) * width + (col + -1))
    with (row * width + col + -1 + width * -1) by lia.
  replace ((row + -1) * width + (col + 0))
    with (row * width + col + (-1 + 1) + width * -1) by lia.
  replace ((row + -1) * width + (col + 1))
    with (row * width + col + (-1 + 1 + 1) + width * -1) by lia.
  replace ((row + 0) * width + (col + -1))
    with (row * width + col + -1 + width * (-1 + 1)) by lia.
  replace ((row + 0) * width + (col + 0))
    with (row * width + col + (-1 + 1) + width * (-1 + 1)) by lia.
  replace ((row + 0) * width + (col + 1))
    with (row * width + col + (-1 + 1 + 1) + width * (-1 + 1)) by lia.
  replace ((row + 1) * width + (col + -1))
    with (row * width + col + -1 + width * (-1 + 1 + 1)) by lia.
  replace ((row + 1) * width + (col + 0))
    with (row * width + col + (-1 + 1) + width * (-1 + 1 + 1)) by lia.
  replace ((row + 1) * width + (col + 1))
    with (row * width + col + (-1 + 1 + 1) + width * (-1 + 1 + 1)) by lia.
  unfold matrix_to_array, for_range.
  change (Z.to_nat (2 - -1)) with 3%nat. cbn [for_loop].
  repeat match goal with
  | |- context [load image ?i] =>
      let o := fresh "o" in
      set (o := load image i); clearbody o
  end.
  repeat match goal with
  | o : option uint8 |- _ => destruct o; [|vm_compute; reflexivity]
  end.
  vm_compute. reflexivity.
Qed.

Lemma load_lookup {A} (buf : list A) (i : nat) :
  load buf (Z.of_nat i) = buf !! i.
Proof.
  unfold load. rewrite bool_decide_eq_true_2 by lia. by rewrite Nat2Z.id.
Qed.

(** One pixel of the source loop against one pixel of the specification. *)
Lemma median3x3_pixel image pa width row col :
  length pa = 9%nat →
  option_Forall2 (λ (st : list uint8 * list uint8) img,
                    st.1 = img ∧ length st.2 = 9%nat)
    (let ptr := row * width + col in
     pix_array ← matrix_to_array pa image ptr width;
     pix_array ← insertion_sort pix_array 9;
     m ← load pix_array 4;
     image ← store image ptr m;
     Some (image, pix_array))
    (median_pixel width (row, col) image).
Proof.
  intros Hlen. cbv zeta. rewrite matrix_to_array_neighborhood by done.
  unfold median_pixel. cbn [fst snd].
  destruct (neighborhood image width row col) as [samples|] eqn:Hn;
    [|constructor].
  cbn [mbind option_bind].
  apply length_mapM in Hn. cbn [length] in Hn.
  replace 9 with (Z.of_nat (length samples)) by lia.
  rewrite insertion_sort_merge_sort. cbn [mbind option_bind].
  change 4 with (Z.of_nat 4). rewrite load_lookup. unfold median9.
  destruct (merge_sort byte_le samples !! 4%nat) as [m|]; [|constructor].
  cbn [mbind option_bind].
  destruct (store image (row * width + col) m); [|constructor].
  constructor. cbn [fst snd]. split; [done|].
  by rewrite merge_sort_Permutation.
Qed.

Lemma for_loop_sim {S1 S2} (R : S1 → S2 → Prop) b1 b2 n i s1 s2 :
  R s1 s2 →
  (∀ j t1 t2, R t1 t2 → option_Forall2 R (b1 j t1) (b2 j t2)) →
  option_Forall2 R (for_loop n i b1 s1) (for_loop n i b2 s2).
Proof.
  intros Hs Hb. revert i s1 s2 Hs.
  induction n as [|n IH]; intros i s1 s2 Hs; [by constructor|].
  cbn [for_loop]. destruct (Hb i s1 s2 Hs) as [t1 t2 Ht|]; [|constructor].
  cbn [mbind option_bind]. by apply IH.
Qed.

Lemma for_loop_foldM {St} (body : Z → St → option St) n i s :
  for_loop n i body s = foldM body (seqZ i (Z.of_nat n)) s.
Proof.
  revert i s. induction n as [|n IH]; intros i s; [done|].
  rewrite seqZ_cons by lia. cbn [for_loop foldM].
  destruct (body i s) as [s'|]; [|done]. cbn [mbind option_bind].
  rewrite IH. do 2 f_equal; lia.
Qed.

Lemma for_range_foldM {St} (body : Z → St → option St) lo hi s :
  for_range lo hi body s = foldM body (seqZ lo (hi - lo)) s.
Proof.
  unfold for_range. rewrite for_loop_foldM.
  destruct (decide (0 ≤ hi - lo)).
  - by rewrite Z2Nat.id.
  - replace (Z.to_nat (hi - lo)) with O by lia.
    unfold seqZ. by replace (Z.to_nat (hi - lo)) with O by lia.
Qed.

Lemma foldM_ext {A St} (f g : A → St → option St) l s :
  (∀ a t, f a t = g a t) → foldM f l s = foldM g l s.
Proof.
  intros Hfg. revert s. induction l as [|a l IH]; intros s; [done|].
  cbn [foldM]. rewrite Hfg. destruct (g a s); [|done]. apply IH.
Qed.

Lemma foldM_app {A St} (f : A → St → option St) l1 l2 s :
  foldM f (l1 ++ l2) s = s' ← foldM f l1 s; foldM f l2 s'.
Proof.
  revert s. induction l1 as [|a l1 IH]; intros s; [done|].
  cbn [app foldM]. destruct (f a s); [|done]. apply IH.
Qed.

Lemma foldM_bind {A B St} (f : B → St → option St) (g : A → list B) l s :
  foldM f (l ≫= g) s = foldM (λ a t, foldM f (g a) t) l s.
Proof.
  revert s. induction l as [|a l IH]; intros s; [done|].
  cbn [mbind list_bind foldM]. rewrite foldM_app.
  destruct (foldM f (g a) s); [|done]. apply IH.
Qed.

(** The specification's scan, written with the loops of the source. *)
Lemma medianFilter_spec_loops image width height :
  medianFilter_spec image width height
  = for_range 1 (height - 1) (λ row img,
      for_range 1 (width - 1) (λ col img,
        median_pixel width (row, col) img) img) image.
Proof.
  unfold medianFilter_spec, interior_pixels.
  rewrite foldM_bind, for_range_foldM.
  replace (height - 1 - 1) with (height - 2) by lia.
  apply foldM_ext. intros row img.
  rewrite foldM_bind, for_range_foldM.
  replace (width - 1 - 1) with (width - 2) by lia.
  apply foldM_ext. intros col t. cbn [foldM].
  by destruct (median_pixel width (row, col) t).
Qed.

(** [median3x3] computes the specification's filter, on every input. *)
Lemma median3x3_refines image width height :
  median3x3 image width height = medianFilter_spec image width height.
Proof.
  rewrite medianFilter_spec_loops. unfold median3x3, for_range.
  match goal with |- ?src ≫= _ = ?spec =>
    assert (option_Forall2 (λ (st : list uint8 * list uint8) img,
              st.1 = img ∧ length st.2 = 9%nat) src spec) as Hsim
  end.
  { apply for_loop_sim; [done|].
    intros row [img pa] img' [<- Hpa]. cbn [fst snd] in *.
    apply for_loop_sim; [done|].
    intros col [img1 pa1] img2 [<- Hpa1]. cbn [fst snd] in *.
    by apply median3x3_pixel. }
  destruct Hsim as [[img pa] img' [<- _]|]; done.
Qed.

Section median_frame.
Context (width height : Z).

Lemma pixel_index_range row col :
  0 ≤ row < height → 0 ≤ col < width →
  0 ≤ row * width + col < width * height.
Proof.
  intros Hr Hc. pose proof (cell_index_range width height col row Hc Hr). lia.
Qed.

(** An interior pixel of a well-sized frame: the step succeeds and writes,
    at that pixel only, a sample that occurs in the frame. *)
Lemma median_pixel_interior (image : list uint8) row col :
  Z.of_nat (length image) = width * height →
  1 ≤ row < height - 1 → 1 ≤ col < width - 1 →
  ∃ m, median_pixel width (row, col) image
       = Some (<[Z.to_nat (row * width + col) := m]> image) ∧
       m ∈ image.
Proof.
  intros Hlen Hr Hc. unfold median_pixel. cbn [fst snd].
  assert (∀ d : Z * Z, -1 ≤ d.1 ≤ 1 → -1 ≤ d.2 ≤ 1 →
            ∃ v, load image ((row + d.1) * width + (col + d.2)) = Some v)
    as Hload.
  { intros d Hd1 Hd2. apply load_Some. rewrite Hlen.
    apply pixel_index_range; lia. }
  destruct (neighborhood image width row col) as [samples|] eqn:Hn; last first.
  { exfalso. apply mapM_None_1, Exists_exists in Hn as (d & Hd & Hnone).
    destruct (Hload d) as [v Hv]; [| |congruence];
      repeat (apply elem_of_cons in Hd as [->|Hd]; [cbn; lia|]);
      by apply not_elem_of_nil in Hd. }
  cbn [mbind option_bind].
  pose proof (mapM_Some_1 _ _ _ Hn) as Hall.
  apply Forall2_length in Hall as Hl9. cbn [length] in Hl9.
  unfold median9.
  destruct (lookup_lt_is_Some_2 (merge_sort byte_le samples) 4) as [m Hm].
  { rewrite merge_sort_Permutation. lia. }
  rewrite Hm. cbn [mbind option_bind].
  exists m. split.
  - apply store_Some. rewrite Hlen. apply pixel_index_range; lia.
  - apply list_elem_of_lookup_2 in Hm. rewrite merge_sort_Permutation in Hm.
    apply list_elem_of_lookup in Hm as [i Hi].
    destruct (Forall2_lookup_r _ _ _ _ _ Hall Hi) as (d & _ & Hd).
    unfold load in Hd. case_bool_decide; [|done].
    by eapply list_elem_of_lookup_2.
Qed.

(** Invariants of the filter: whatever holds of the frame at entry and is
    kept by writing a sample of the frame at an interior pixel holds of the
    result; in particular the filter returns. *)
Lemma median3x3_invariant (P : list uint8 → Prop) (image : list uint8) :
  Z.of_nat (length image) = width * height →
  P image →
  (∀ img m row col,
     P img → length img = length image → m ∈ img →
     1 ≤ row < height - 1 → 1 ≤ col < width - 1 →
     P (<[Z.to_nat (row * width + col) := m]> img)) →
  ∃ out, median3x3 image width height = Some out ∧
         P out ∧ length out = length image.
Proof.
  intros Hlen HP Hstep.
  rewrite median3x3_refines, medianFilter_spec_loops.
  match goal with |- context [for_range ?lo ?hi ?body ?s] =>
    destruct (for_range_inv_max
      (λ _ img, P img ∧ length img = length image) body lo hi s)
      as (out & Hrun & Hout); [done| |by exists out]
  end.
  intros row img Hrow [HPi Hli].
  match goal with |- context [for_range ?lo ?hi ?body ?s] =>
    destruct (for_range_inv_max
      (λ _ img, P img ∧ length img = length image) body lo hi s)
      as (out & Hrun & Hout); [done| |by exists out]
  end.
  intros col img1 Hcol [HP1 Hl1].
  destruct (median_pixel_interior img1 row col) as (m & -> & Hm);
    [lia|lia|lia|].
  eexists; split; [done|]. split.
  - apply Hstep; [done|done|done|lia|lia].
  - by rewrite length_insert.
Qed.
End median_frame.

(** A frame of one value is left as it is. *)
Lemma median3x3_constant (c : uint8) n width height :
  Z.of_nat n = width * height →
  median3x3 (replicate n c) width height = Some (replicate n c).
Proof.
  intros Hn.
  destruct (median3x3_invariant width height (λ img, img = replicate n c)
              (replicate n c)) as (out & -> & -> & _); [| | |done].
  - by rewrite length_replicate.
  - done.
  - intros img m row col -> _ Hm _ _.
    apply elem_of_replicate in Hm as [-> _]. apply insert_replicate.
Qed.

(** ** [match] against the search of the specification *)

(** The loops of [match] visit the candidates in raster order and apply
    the replacement rule of the specification. *)
Lemma match_refines xy posx posy prev curr width :
  match_ xy posx posy prev curr width
  = matchSearch_spec xy posx posy prev curr width.
Proof.
  unfold matchSearch_spec, match_, raster_candidates.
  rewrite foldM_bind, for_range_foldM.
  change (BSIZE - - BSIZE) with 32. change (- BSIZE) with (-16).
  apply foldM_ext. intros mvy st.
  rewrite foldM_bind, for_range_foldM.
  change (BSIZE - - BSIZE) with 32. change (- BSIZE) with (-16).
  apply foldM_ext. intros mvx [min_sad best]. cbn [foldM].
  unfold replace_rule, match_visit, sad_at. cbn [fst snd].
  destruct (compute_sad prev curr width (posx + mvx) (posy + mvy) posx posy)
    as [sad|]; [|reflexivity].
  cbn [mbind option_bind]. case_bool_decide; reflexivity.
Qed.


(** ** [quick_sqrt] *)

Lemma float_of_bits_wrap32 z : float_of_bits (wrap32 z) = float_of_bits z.
Proof.
  unfold float_of_bits, wrap32.
  rewrite Zminus_mod_idemp_l. by replace (z + 2 ^ 31 - 2 ^ 31) with z by lia.
Qed.

(** The source takes the steps the specification lists: the shifted bit
    pattern subtracted from the magic constant, three Newton steps, and the
    reciprocal. *)
Lemma quick_sqrt_refines x : quick_sqrt x = approxSqrt_spec x.
Proof.
  unfold quick_sqrt, approxSqrt_spec. cbv zeta.
  rewrite float_of_bits_wrap32.
  unfold Nat.iter. cbn [nat_rect]. unfold newton_step. reflexivity.
Qed.

Lemma within_0_2_percent_of_sqrt_b_spec r n :
  within_0_2_percent_of_sqrt_b r n = true → within_0_2_percent_of_sqrt r n.
Proof.
  unfold within_0_2_percent_of_sqrt_b, within_0_2_percent_of_sqrt.
  rewrite !andb_true_iff, negb_true_iff, !Qle_bool_iff.
  intros [[Hpos Hlo] Hhi]. split_and!; [|done|done].
  apply Qnot_le_lt. intros Hle. apply Qle_bool_iff in Hle. congruence.
Qed.

Lemma sorted_pairs_check_spec (p : Z → bool) n a b :
  sorted_pairs_check p n = true → 0 ≤ a ≤ b → b < n →
  p (a * a + b * b) = true.
Proof.
  unfold sorted_pairs_check. intros Ht Ha Hb.
  rewrite forallb_forall in Ht.
  assert (In a (seqZ 0 n)) as Hia
    by (apply list_elem_of_In, elem_of_seqZ; lia).
  specialize (Ht a Hia). rewrite forallb_forall in Ht.
  apply Ht, list_elem_of_In, elem_of_seqZ. lia.
Qed.

(** Every squared magnitude [a * a + b * b] an [int8] vector can have,
    [0 <= a <= b <= 128], checked by evaluation. *)
Lemma magnitude_table_checked :
  sorted_pairs_check
    (λ sq, magnitude_check (float_of_int sq) (quick_sqrt (float_of_int sq)) sq)
    129 = true.
Proof. vm_cast_no_check (eq_refl true). Qed.

Lemma magnitude_ok_sorted a b :
  0 ≤ a ≤ b → b ≤ 128 →
  magnitude_check (float_of_int (a * a + b * b))
    (quick_sqrt (float_of_int (a * a + b * b))) (a * a + b * b) = true.
Proof.
  intros Ha Hb.
  assert (b < 129) as Hb' by lia.
  exact (sorted_pairs_check_spec _ 129 a b magnitude_table_checked Ha Hb').
Qed.

(** Every squared magnitude of an [int8] vector passes the check. *)
Lemma magnitude_ok_int8 x y :
  int8_range x → int8_range y →
  magnitude_check (float_of_int (x * x + y * y))
    (quick_sqrt (float_of_int (x * x + y * y))) (x * x + y * y) = true.
Proof.
  unfold int8_range. intros Hx Hy.
  rewrite <- (Z.abs_square x), <- (Z.abs_square y).
  destruct (decide (Z.abs x ≤ Z.abs y)).
  - apply magnitude_ok_sorted; lia.
  - rewrite Z.add_comm. apply magnitude_ok_sorted; lia.
Qed.

Lemma magnitude_check_spec x r sq :
  magnitude_check x r sq = true →
  (float_value x == inject_Z sq)%Q ∧
  flt r fzero = false ∧
  (sq ≠ 0 → within_0_2_percent_of_sqrt (float_value r) sq).
Proof.
  unfold magnitude_check.
  intros [[Hex Hneg]%andb_true_iff Hacc]%andb_true_iff. split_and!.
  - by apply Qeq_bool_iff.
  - by apply negb_true_iff in Hneg.
  - intros Hsq. apply orb_true_iff in Hacc as [Hz|Hacc].
    + by apply bool_decide_eq_true_1 in Hz.
    + by apply within_0_2_percent_of_sqrt_b_spec.
Qed.

Lemma quick_sqrt_not_negative x y :
  int8_range x → int8_range y →
  flt (quick_sqrt (float_of_int (x * x + y * y))) fzero = false.
Proof.
  intros Hx Hy.
  exact (proj1 (proj2
    (magnitude_check_spec _ _ _ (magnitude_ok_int8 x y Hx Hy)))).
Qed.

Lemma quick_sqrt_accurate x y :
  int8_range x → int8_range y → x * x + y * y ≠ 0 →
  within_0_2_percent_of_sqrt
    (float_value (quick_sqrt (float_of_int (x * x + y * y))))
    (x * x + y * y).
Proof.
  intros Hx Hy.
  exact (proj2 (proj2
    (magnitude_check_spec _ _ _ (magnitude_ok_int8 x y Hx Hy)))).
Qed.

Lemma float_of_int_exact x y :
  int8_range x → int8_range y →
  (float_value (float_of_int (x * x + y * y)) == inject_Z (x * x + y * y))%Q.
Proof.
  intros Hx Hy.
  exact (proj1 (magnitude_check_spec _ _ _ (magnitude_ok_int8 x y Hx Hy))).
Qed.

(** ** [compute_statistics] *)

Lemma compute_statistics_min (mv : list MVector) :
  Forall (λ v, int8_range (MV.x v) ∧ int8_range (MV.y v)) mv →
  ∃ mean max,
    compute_statistics mv (Z.of_nat (length mv)) = Some (mean, fzero, max).
Proof.
  intros Hmv. unfold compute_statistics.
  match goal with |- context [for_range ?lo ?hi ?body ?s] =>
    destruct (for_range_inv
      (λ _ (st : float * float * float * float), st.1.2 = fzero)
      body lo hi s) as ([[[len total] mn] mx] & -> & Hmin);
      [lia|done| |]
  end.
  - intros idx [[[len total] mn] mx] Hidx Hmn. cbn [fst snd] in Hmn. subst mn.
    destruct (load_Some mv idx) as [v Hv]; [lia|]. rewrite Hv.
    cbn [mbind option_bind].
    assert (v ∈ mv) as Hin.
    { unfold load in Hv. case_bool_decide; [|done].
      by eapply list_elem_of_lookup_2. }
    rewrite Forall_forall in Hmv. destruct (Hmv v Hin) as [Hx Hy].
    rewrite quick_sqrt_not_negative by done.
    eexists; split; [done|done].
  - cbn [fst snd] in Hmin. subst mn. cbn [mbind option_bind]. eauto.
Qed.

(** ** Frames of one value *)

Lemma load_replicate {A} n (c v : A) i :
  load (replicate n c) i = Some v → v = c.
Proof.
  unfold load. case_bool_decide; [|done].
  by intros [-> _]%lookup_replicate.
Qed.

Lemma compute_sad_constant (c : uint8) n m width px py cx cy :
  block_in_bounds (replicate n c) width px py →
  block_in_bounds (replicate m c) width cx cy →
  compute_sad (replicate n c) (replicate m c) width px py cx cy = Some 0.
Proof.
  intros Hp Hc. unfold compute_sad.
  match goal with |- context [for_range ?lo ?hi ?body ?s] =>
    destruct (for_range_inv (λ _ sad, sad = 0) body lo hi s)
      as (s' & -> & ->); [unfold BSIZE; lia|done| |done]
  end.
  intros y sad Hy ->.
  match goal with |- context [for_range ?lo ?hi ?body ?s] =>
    destruct (for_range_inv (λ _ sad, sad = 0) body lo hi s)
      as (s' & -> & ->); [unfold BSIZE; lia|done| |by exists 0]
  end.
  intros x sad Hx ->.
  destruct (load_Some (replicate n c) ((py + y) * width + (px + x)))
    as [p Hpl]; [by apply Hp|].
  destruct (load_Some (replicate m c) ((cy + y) * width + (cx + x)))
    as [q Hql]; [by apply Hc|].
  rewrite Hpl, Hql. cbn [mbind option_bind].
  apply load_replicate in Hpl as ->. apply load_replicate in Hql as ->.
  exists 0. split; [f_equal; lia|done].
Qed.

(** All 1024 candidates tie at cost 0, so [match] reports the last one. *)
Lemma match_constant (c : uint8) n xy posx posy width :
  search_in_bounds (replicate n c) (replicate n c) width posx posy →
  match_ xy posx posy (replicate n c) (replicate n c) width
  = Some (0, Some (15, 15)).
Proof.
  intros Hv. apply match_all_zero; [done|].
  intros vx vy Hc. destruct Hv as [Hcur Hprev].
  apply compute_sad_constant; [by apply Hprev|done].
Qed.

(** In the lemmas below the length [n] of the frames is a variable equal
    to 4096, so that no step of a proof evaluates the search itself. *)
Lemma search_in_bounds_64 (c : uint8) n idx idy :
  n = 4096%nat → 2 ≤ idx < 4 → 2 ≤ idy < 4 →
  search_in_bounds (replicate n c) (replicate n c) 64
    (idx * MSTEP) (idy * MSTEP).
Proof.
  intros Hn Hx Hy.
  apply (grid_search_in_bounds _ _ 64 64);
    [rewrite length_replicate; lia..|].
  change (64 `quot` MSTEP) with 8. unfold computed_cell. lia.
Qed.

Lemma full_search_constant_64 (c : uint8) n :
  n = 4096%nat →
  full_search (zero_field 64 64) (replicate n c) (replicate n c) 64 64
  = Some field64.
Proof.
  intros Hn. unfold full_search, for_range.
  change (64 `quot` MSTEP) with 8.
  change (Z.to_nat (8 - 4 - 2)) with 2%nat.
  change (zero_field 64 64) with (replicate 64 MV.zero).
  cbn [for_loop].
  repeat (rewrite match_constant by (apply search_in_bounds_64; [done|lia..]);
          cbn [mbind option_bind];
          rewrite store_Some
            by (rewrite ?length_insert, length_replicate; lia);
          cbn [mbind option_bind]).
  reflexivity.
Qed.

Lemma compute_statistics_field64 :
  compute_statistics field64 ((64 `quot` MSTEP) * (64 `quot` MSTEP))
  = Some (mean64, fzero, max64).
Proof. vm_cast_no_check (eq_refl (Some (mean64, fzero, max64))). Qed.

(** [pipeline] from the results of its four stages. *)
Lemma pipeline_stages frame_1 frame_2 width height f1 f2 mv stats :
  median3x3 frame_1 width height = Some f1 →
  median3x3 frame_2 width height = Some f2 →
  full_search (zero_field width height) f1 f2 width height = Some mv →
  compute_statistics mv ((width `quot` MSTEP) * (height `quot` MSTEP))
    = Some stats →
  pipeline frame_1 frame_2 width height = Some (mv, stats).
Proof.
  intros H1 H2 H3 H4. unfold pipeline. cbv zeta.
  rewrite H1. cbn [mbind option_bind]. rewrite H2. cbn [mbind option_bind].
  unfold zero_field in H3. rewrite H3. cbn [mbind option_bind].
  rewrite H4. done.
Qed.

(** The whole pipeline on two identical 64 x 64 frames of one value. *)
Lemma pipeline_constant_64 (c : uint8) n :
  n = 4096%nat →
  pipeline (replicate n c) (replicate n c) 64 64
  = Some (field64, (mean64, fzero, max64)).
Proof.
  intros Hn.
  apply (pipeline_stages _ _ 64 64 (replicate n c) (replicate n c)).
  - apply median3x3_constant. lia.
  - apply median3x3_constant. lia.
  - by apply full_search_constant_64.
  - exact compute_statistics_field64.
Qed.

(** ** Examples *)

(** The source's sort on nine samples. *)
Example insertion_sort_example :
  insertion_sort
    [ "005"; "003"; "009"; "001"; "200"; "007"; "007"; "000"; "255" ]%byte 9
  = Some [ "000"; "001"; "003"; "005"; "007"; "007"; "009"; "200"; "255" ]%byte.
Proof. vm_compute. reflexivity. Qed.

(** The filter on [frame4]: the outlier 100 at (1, 1) becomes 7, and the
    pixel (1, 2) next to it is computed from that new value. *)
Example median3x3_example :
  median3x3 frame4 4 4
  = Some [ "001"; "002"; "003"; "004";
           "005"; "007"; "007"; "008";
           "009"; "010"; "011"; "012";
           "013"; "014"; "015"; "016" ]%byte.
Proof. vm_compute. reflexivity. Qed.

(** A buffer one row short: the neighbourhood of the last interior row
    reads past its end. *)
Example median3x3_short_buffer : median3x3 frame4 4 5 = None.
Proof. vm_compute. reflexivity. Qed.

(** The approximate roots of 13, 450 and 0, as binary32 bit patterns:
    3.6055512, 21.213203 and about 2.24e-20. *)
Example quick_sqrt_example :
  bits_of_float (quick_sqrt (float_of_int 13)) = 0x4066c15a ∧
  bits_of_float (quick_sqrt (float_of_int 450)) = 0x41a9b4a4 ∧
  bits_of_float (quick_sqrt (float_of_int 0)) = 0x1ed3cf65.
Proof. vm_compute. repeat split. Qed.

(** * The properties of the specification *)



(** C2.  [match] replaces the running best by every candidate whose SAD is
    less than or equal to it, visiting [mvy] ascending outside and [mvx]
    ascending inside: it is the replacement rule of the specification
    folded over the candidates in raster order.  So the cost returned is
    the minimal SAD of the 1024 candidates, and among the candidates that
    tie for that minimum the one returned is the last visited, the one with
    the largest [(mvy, mvx)]: every candidate visited after it has a
    strictly larger SAD. *)
Theorem match_last_tie_wins xy posx posy prev curr width :
  search_in_bounds prev curr width posx posy →
  match_ xy posx posy prev curr width
    = matchSearch_spec xy posx posy prev curr width ∧
  ∃ cost dx dy,
    match_ xy posx posy prev curr width = Some (cost, Some (dx, dy)) ∧
    candidate dx dy ∧
    sad_at prev curr width posx posy dx dy = Some cost ∧
    (∀ mvx mvy, candidate mvx mvy →
       ∃ sad, sad_at prev curr width posx posy mvx mvy = Some sad ∧
              cost ≤ sad) ∧
    (∀ mvx mvy, candidate mvx mvy →
       sad_at prev curr width posx posy mvx mvy = Some cost →
       raster_le (mvx, mvy) (dx, dy)) ∧
    (∀ mvx mvy, candidate mvx mvy → raster_lt (dx, dy) (mvx, mvy) →
       ∃ sad, sad_at prev curr width posx posy mvx mvy = Some sad ∧
              cost < sad).
Proof.
  intros Hv. split; [apply match_refines|].
  destruct (match_spec xy _ _ _ _ _ Hv)
    as (c & bx & by_ & Hm & Hb & Hs & Hc & Hall).
  exists c, bx, by_. split_and!; [done|done|done| | |].
  - intros mvx mvy Hcand.
    destruct (Hall _ _ Hcand) as (s & Hs' & Hle & _). by exists s.
  - intros mvx mvy Hcand Htie.
    destruct (Hall _ _ Hcand) as (s & Hs' & _ & Hlast).
    apply Hlast. congruence.
  - intros mvx mvy Hcand Hlater.
    destruct (Hall _ _ Hcand) as (s & Hs' & Hle & Hlast).
    exists s. split; [done|].
    destruct (decide (s = c)) as [Heq|]; [|lia].
    specialize (Hlast Heq). unfold raster_lt, raster_le in *.
    cbn [fst snd] in *. lia.
Qed.

Lemma match_last_tie_wins_witness :
  match_ None 16 16 frame47 frame47 47
    = matchSearch_spec None 16 16 frame47 frame47 47 ∧
  ∃ cost dx dy,
    match_ None 16 16 frame47 frame47 47 = Some (cost, Some (dx, dy)) ∧
    candidate dx dy ∧
    sad_at frame47 frame47 47 16 16 dx dy = Some cost ∧
    (∀ mvx mvy, candidate mvx mvy →
       ∃ sad, sad_at frame47 frame47 47 16 16 mvx mvy = Some sad ∧
              cost ≤ sad) ∧
    (∀ mvx mvy, candidate mvx mvy →
       sad_at frame47 frame47 47 16 16 mvx mvy = Some cost →
       raster_le (mvx, mvy) (dx, dy)) ∧
    (∀ mvx mvy, candidate mvx mvy → raster_lt (dx, dy) (mvx, mvy) →
       ∃ sad, sad_at frame47 frame47 47 16 16 mvx mvy = Some sad ∧
              cost < sad).
Proof.
  apply (match_last_tie_wins None 16 16 frame47 frame47 47).
  unfold search_in_bounds, block_in_bounds, candidate, BSIZE, frame47.
  rewrite length_replicate. split; intros; lia.
Defined.

(** C3.  For two frames of the same size and the zero-initialised field of
    [nx = width / STEP] by [ny = height / STEP] entries, [estimateMotion]
    returns a field in which every cell [(idx, idy)] with
    [2 <= idx <= nx - 5] and [2 <= idy <= ny - 5] holds, at index
    [idy * nx + idx], the displacement [match] reports for the anchor
    [(idx * STEP, idy * STEP)], and every cell with [idx < 2], [idy < 2],
    [idx >= nx - 4] or [idy >= ny - 4] is the zero vector. *)
Theorem estimateMotion_grid prev curr width height :
  Z.of_nat (length prev) = width * height →
  Z.of_nat (length curr) = width * height →
  ∃ field,
    estimateMotion prev curr width height = Some field ∧
    length field
      = Z.to_nat ((width `quot` MSTEP) * (height `quot` MSTEP)) ∧
    ∀ idx idy,
      0 ≤ idx < width `quot` MSTEP → 0 ≤ idy < height `quot` MSTEP →
      (2 ≤ idx ≤ width `quot` MSTEP - 5 ∧ 2 ≤ idy ≤ height `quot` MSTEP - 5 →
         ∃ cost x y,
           match_ None (idx * MSTEP) (idy * MSTEP) prev curr width
             = Some (cost, Some (x, y)) ∧
           field !! Z.to_nat (idy * (width `quot` MSTEP) + idx)
             = Some (MV.mk x y)) ∧
      (idx < 2 ∨ idy < 2 ∨
       width `quot` MSTEP - 4 ≤ idx ∨ height `quot` MSTEP - 4 ≤ idy →
         field !! Z.to_nat (idy * (width `quot` MSTEP) + idx)
           = Some MV.zero).
Proof.
  intros Hp Hc. unfold estimateMotion.
  destruct (full_search_spec prev curr width height Hp Hc _ _ eq_refl eq_refl
              (zero_field width height) (length_zero_field width height))
    as (field & Hrun & Hlen & Hcomp & Hrest & _).
  exists field. rewrite length_zero_field in Hlen.
  split_and!; [done|done|].
  intros idx idy Hx Hy. split.
  - intros Hcell. destruct (Hcomp idx idy) as (c & x & y & ? & _ & ?).
    { unfold computed_cell. lia. }
    by exists c, x, y.
  - intros Hmargin. rewrite Hrest.
    + unfold zero_field. apply lookup_replicate_2.
      pose proof (cell_index_range _ _ idx idy Hx Hy). lia.
    + intros i j [Hi Hj] Heq.
      pose proof (cell_index_range _ _ idx idy Hx Hy).
      rewrite Z2Nat.id in Heq by lia.
      apply cell_index_inj in Heq as [-> ->]; lia.
Qed.

Lemma estimateMotion_grid_witness :
  ∃ field,
    estimateMotion frame64 frame64 64 64 = Some field ∧
    length field = Z.to_nat ((64 `quot` MSTEP) * (64 `quot` MSTEP)) ∧
    ∀ idx idy,
      0 ≤ idx < 64 `quot` MSTEP → 0 ≤ idy < 64 `quot` MSTEP →
      (2 ≤ idx ≤ 64 `quot` MSTEP - 5 ∧ 2 ≤ idy ≤ 64 `quot` MSTEP - 5 →
         ∃ cost x y,
           match_ None (idx * MSTEP) (idy * MSTEP) frame64 frame64 64
             = Some (cost, Some (x, y)) ∧
           field !! Z.to_nat (idy * (64 `quot` MSTEP) + idx)
             = Some (MV.mk x y)) ∧
      (idx < 2 ∨ idy < 2 ∨
       64 `quot` MSTEP - 4 ≤ idx ∨ 64 `quot` MSTEP - 4 ≤ idy →
         field !! Z.to_nat (idy * (64 `quot` MSTEP) + idx) = Some MV.zero).
Proof.
  apply (estimateMotion_grid frame64 frame64 64 64);
    unfold frame64; rewrite length_replicate; lia.
Defined.

(** C4.  [medianFilter] replaces every pixel strictly inside the one-pixel
    border, rows 1..height-2 and columns 1..width-2 scanned row-major and
    left to right, by the fifth smallest of the nine samples of its 3 x 3
    neighbourhood sorted ascending, the samples being read from the buffer
    as it is at that moment: [median3x3] computes exactly
    [medianFilter_spec], it returns on every frame of the declared size,
    and the value it writes is the fifth entry of the sorted samples. *)
Theorem median3x3_in_place_median image width height :
  median3x3 image width height = medianFilter_spec image width height ∧
  (Z.of_nat (length image) = width * height →
     ∃ out, median3x3 image width height = Some out ∧
            length out = length image) ∧
  (∀ samples, ∃ sorted,
     Sorted byte_le sorted ∧ sorted ≡ₚ samples ∧
     insertion_sort samples (Z.of_nat (length samples)) = Some sorted ∧
     median9 samples = sorted !! 4%nat).
Proof.
  split_and!.
  - apply median3x3_refines.
  - intros Hlen.
    destruct (median3x3_invariant width height (λ _, True) image)
      as (out & ? & _ & ?); [done|done|done|by exists out].
  - intros samples. exists (merge_sort byte_le samples). split_and!.
    + apply Sorted_merge_sort. apply _.
    + apply merge_sort_Permutation.
    + apply insertion_sort_merge_sort.
    + done.
Qed.

Lemma median3x3_in_place_median_witness :
  median3x3 frame64 64 64 = medianFilter_spec frame64 64 64 ∧
  (∃ out, median3x3 frame64 64 64 = Some out ∧
          length out = length frame64) ∧
  (∃ sorted,
     Sorted byte_le sorted ∧ sorted ≡ₚ replicate 9 "128"%byte ∧
     insertion_sort (replicate 9 "128"%byte) 9 = Some sorted ∧
     median9 (replicate 9 "128"%byte) = sorted !! 4%nat).
Proof.
  destruct (median3x3_in_place_median frame64 64 64) as (H1 & H2 & H3).
  split_and!; [exact H1| |exact (H3 (replicate 9 "128"%byte))].
  apply H2. unfold frame64. rewrite length_replicate. lia.
Defined.

(** C5.  [medianFilter] leaves every pixel of row 0, row height-1,
    column 0 and column width-1 as it was: only interior pixels are
    written. *)
Theorem median3x3_border_unchanged image width height :
  Z.of_nat (length image) = width * height →
  ∃ out,
    median3x3 image width height = Some out ∧
    length out = length image ∧
    ∀ row col, border_pixel width height row col →
      out !! Z.to_nat (row * width + col)
      = image !! Z.to_nat (row * width + col).
Proof.
  intros Hlen.
  destruct (median3x3_invariant width height
    (λ img, ∀ row col, border_pixel width height row col →
       img !! Z.to_nat (row * width + col)
       = image !! Z.to_nat (row * width + col)) image)
    as (out & Hrun & Hb & Hl); [done|done| |by exists out].
  intros img m r c Hinv _ _ Hr Hc row col Hborder.
  rewrite list_lookup_insert_ne; [by apply Hinv|].
  destruct Hborder as (Hrow & Hcol & Hedge).
  pose proof (cell_index_range width height col row Hcol Hrow).
  assert (0 ≤ c < width ∧ 0 ≤ r < height) as [Hc' Hr'] by lia.
  pose proof (cell_index_range width height c r Hc' Hr').
  intros Heq. apply Z2Nat.inj in Heq; [|lia..].
  apply cell_index_inj in Heq as [-> ->]; lia.
Qed.

Lemma median3x3_border_unchanged_witness :
  ∃ out,
    median3x3 frame64 64 64 = Some out ∧
    length out = length frame64 ∧
    ∀ row col, border_pixel 64 64 row col →
      out !! Z.to_nat (row * 64 + col) = frame64 !! Z.to_nat (row * 64 + col).
Proof.
  apply (median3x3_border_unchanged frame64 64 64).
  unfold frame64. rewrite length_replicate. lia.
Defined.

(** C6.  [computeStatistics] reports [min] equal to exactly 0 on every
    field, empty or not, whatever magnitudes it holds: [min] starts at 0
    and is lowered only by a magnitude strictly less than it, and no
    computed magnitude is negative. *)
Theorem compute_statistics_min_is_zero (mv : list MVector) :
  Forall (λ v, int8_range (MV.x v) ∧ int8_range (MV.y v)) mv →
  (∃ mean max,
     compute_statistics mv (Z.of_nat (length mv)) = Some (mean, fzero, max)) ∧
  ∀ v, v ∈ mv →
    flt (quick_sqrt (float_of_int (MV.x v * MV.x v + MV.y v * MV.y v))) fzero
    = false.
Proof.
  intros Hmv. split.
  - by apply compute_statistics_min.
  - intros v Hv. rewrite Forall_forall in Hmv.
    destruct (Hmv v Hv). by apply quick_sqrt_not_negative.
Qed.

Lemma compute_statistics_min_is_zero_witness :
  (∃ mean max,
     compute_statistics field3 (Z.of_nat (length field3))
     = Some (mean, fzero, max)) ∧
  ∀ v, v ∈ field3 →
    flt (quick_sqrt (float_of_int (MV.x v * MV.x v + MV.y v * MV.y v))) fzero
    = false.
Proof.
  apply (compute_statistics_min_is_zero field3).
  unfold field3, int8_range. repeat constructor; cbn; lia.
Defined.

(** C7, as it holds.  For two identical 64 x 64 frames of one value the
    pipeline (median filter on both frames, [estimateMotion],
    [computeStatistics]) yields the field in which each of the four
    computed vectors is (15, 15): all 1024 candidates tie at SAD 0 and the
    last one visited wins.  Every other cell is the zero vector; [min] is
    0, [max] is the approximate root of 450, about 21.21, and [mean] is a
    sixteenth of it, about 1.326. *)
Theorem pipeline_constant_frames (c : uint8) :
  pipeline (replicate 4096 c) (replicate 4096 c) 64 64
    = Some (field64, (mean64, fzero, max64)) ∧
  (∀ idx idy, 0 ≤ idx < 8 → 0 ≤ idy < 8 →
     (computed_cell 8 8 idx idy →
        field64 !! Z.to_nat (idy * 8 + idx) = Some (MV.mk 15 15)) ∧
     (¬ computed_cell 8 8 idx idy →
        field64 !! Z.to_nat (idy * 8 + idx) = Some MV.zero)) ∧
  max64 = quick_sqrt (float_of_int (15 * 15 + 15 * 15)) ∧
  (float_value max64 == 11121828 # 524288)%Q ∧
  (float_value mean64 == float_value max64 / 16)%Q.
Proof.
  split_and!.
  - exact (pipeline_constant_64 c 4096 eq_refl).
  - intros idx idy Hx Hy. unfold computed_cell. split; intros Hcell.
    + assert (idx = 2 ∨ idx = 3) as [-> | ->] by lia;
        (assert (idy = 2 ∨ idy = 3) as [-> | ->] by lia); reflexivity.
    + unfold field64. rewrite !list_lookup_insert_ne by lia.
      apply lookup_replicate_2. lia.
  - vm_cast_no_check (eq_refl max64).
  - reflexivity.
  - reflexivity.
Qed.

Lemma pipeline_constant_frames_witness :
  pipeline frame64 frame64 64 64 = Some (field64, (mean64, fzero, max64)) ∧
  field64 !! Z.to_nat (2 * 8 + 2) = Some (MV.mk 15 15) ∧
  field64 !! Z.to_nat (0 * 8 + 0) = Some MV.zero.
Proof.
  destruct (pipeline_constant_frames "128"%byte) as (Hrun & Hcells & _).
  split_and!; [exact Hrun| |].
  - apply (proj1 (Hcells 2 2 ltac:(lia) ltac:(lia))).
    unfold computed_cell. lia.
  - apply (proj2 (Hcells 0 0 ltac:(lia) ltac:(lia))).
    unfold computed_cell. lia.
Defined.

(** C7, as stated, fails on a frame of the value 128: the pipeline returns,
    the computed cell (2, 2) holds (15, 15), and neither the mean nor the
    maximum is 0; so it is not the case that every computed vector is (0, 0)
    with mean and maximum 0. *)
Lemma pipeline_constant_frames_not_zero :
  (∃ mv mean min max,
     pipeline frame64 frame64 64 64 = Some (mv, (mean, min, max)) ∧
     computed_cell 8 8 2 2 ∧
     mv !! Z.to_nat (2 * 8 + 2) = Some (MV.mk 15 15) ∧
     mean ≠ fzero ∧ max ≠ fzero) ∧
  ¬ (∃ mv mean min max,
       pipeline frame64 frame64 64 64 = Some (mv, (mean, min, max)) ∧
       (∀ idx idy, computed_cell 8 8 idx idy →
          mv !! Z.to_nat (idy * 8 + idx) = Some MV.zero) ∧
       mean = fzero ∧ max = fzero).
Proof.
  assert (pipeline frame64 frame64 64 64
          = Some (field64, (mean64, fzero, max64))) as Hrun
    by exact (pipeline_constant_64 "128"%byte 4096 eq_refl).
  split.
  - exists field64, mean64, fzero, max64.
    split_and!; [done|unfold computed_cell; lia|done|done|done].
  - intros (mv & mean & mn & mx & Hrun' & Hcells & _).
    rewrite Hrun in Hrun'. injection Hrun' as <- _ _ _.
    specialize (Hcells 2 2). discriminate Hcells.
    unfold computed_cell. lia.
Qed.

(** C8.  On every input [x], [quick_sqrt] takes exactly the stated steps:
    the bits of [x] read as an integer [i], [i' = 0x5F375A86 - (i >> 1)]
    read back as a float [y], the Newton step
    [y = y * (1.5 - 0.5 * x * y * y)] three times, and [1 / y] returned.
    On the inputs of the program, the squared magnitudes [x * x + y * y] of
    [int8] vectors other than 0 (each exactly representable), the result is
    within 0.2 percent of the square root. *)
Theorem quick_sqrt_steps_and_accuracy :
  (∀ x, quick_sqrt x = approxSqrt_spec x) ∧
  (∀ x y, int8_range x → int8_range y → x * x + y * y ≠ 0 →
     (float_value (float_of_int (x * x + y * y))
        == inject_Z (x * x + y * y))%Q ∧
     within_0_2_percent_of_sqrt
       (float_value (quick_sqrt (float_of_int (x * x + y * y))))
       (x * x + y * y)).
Proof.
  split.
  - apply quick_sqrt_refines.
  - intros x y Hx Hy Hnz. split.
    + by apply float_of_int_exact.
    + by apply quick_sqrt_accurate.
Qed.

Lemma quick_sqrt_steps_and_accuracy_witness :
  quick_sqrt (float_of_int 13) = approxSqrt_spec (float_of_int 13) ∧
  (float_value (float_of_int (3 * 3 + -2 * -2))
     == inject_Z (3 * 3 + -2 * -2))%Q ∧
  within_0_2_percent_of_sqrt
    (float_value (quick_sqrt (float_of_int (3 * 3 + -2 * -2))))
    (3 * 3 + -2 * -2).
Proof.
  destruct quick_sqrt_steps_and_accuracy as [Hsteps Hacc].
  split; [exact (Hsteps (float_of_int 13))|].
  apply (Hacc 3 (-2)); unfold int8_range; lia.
Defined.

(** C9.  Every entry of a field produced by [estimateMotion] has both
    components in [-16, 15], so the store into the signed 8-bit fields
    truncates nothing: a computed cell receives the displacement [match]
    assigns from its loop variables, and a margin cell is the zero
    vector. *)
Theorem estimateMotion_components_in_range prev curr width height :
  Z.of_nat (length prev) = width * height →
  Z.of_nat (length curr) = width * height →
  ∃ field,
    estimateMotion prev curr width height = Some field ∧
    Forall mv_in_range field ∧
    ∀ idx idy,
      computed_cell (width `quot` MSTEP) (height `quot` MSTEP) idx idy →
      ∃ cost x y,
        match_ None (idx * MSTEP) (idy * MSTEP) prev curr width
          = Some (cost, Some (x, y)) ∧
        candidate x y ∧
        int8_of_int x = x ∧ int8_of_int y = y ∧
        field !! Z.to_nat (idy * (width `quot` MSTEP) + idx)
          = Some (MV.mk (int8_of_int x) (int8_of_int y)).
Proof.
  intros Hp Hc. unfold estimateMotion.
  destruct (full_search_spec prev curr width height Hp Hc _ _ eq_refl eq_refl
              (zero_field width height) (length_zero_field width height))
    as (field & Hrun & Hlen & Hcomp & _ & Hrange).
  exists field. split_and!; [done| |].
  - apply Forall_lookup. intros k v Hk.
    destruct (Hrange k v Hk) as [Hz|Hr]; [|done].
    apply zero_field_lookup in Hz as ->. unfold mv_in_range. cbn. lia.
  - intros idx idy Hcell.
    destruct (Hcomp idx idy Hcell) as (c & x & y & Hm & Hxy & Hlk).
    exists c, x, y. rewrite !int8_of_int_id by raster.
    split_and!; done.
Qed.

Lemma estimateMotion_components_in_range_witness :
  ∃ field,
    estimateMotion frame64 frame64 64 64 = Some field ∧
    Forall mv_in_range field ∧
    ∀ idx idy,
      computed_cell (64 `quot` MSTEP) (64 `quot` MSTEP) idx idy →
      ∃ cost x y,
        match_ None (idx * MSTEP) (idy * MSTEP) frame64 frame64 64
          = Some (cost, Some (x, y)) ∧
        candidate x y ∧
        int8_of_int x = x ∧ int8_of_int y = y ∧
        field !! Z.to_nat (idy * (64 `quot` MSTEP) + idx)
          = Some (MV.mk (int8_of_int x) (int8_of_int y)).
Proof.
  apply (estimateMotion_components_in_range frame64 frame64 64 64);
    unfold frame64; rewrite length_replicate; lia.
Defined.

Lemma quot_MSTEP_small w : w < 56 → w `quot` MSTEP ≤ 6.
Proof.
  intros Hw. unfold MSTEP. destruct (decide (0 ≤ w)).
  - rewrite Z.quot_div_nonneg by lia.
    pose proof (Z.mul_div_le w 8). lia.
  - replace w with (- - w) by lia. rewrite Z.quot_opp_l by lia.
    rewrite Z.quot_div_nonneg by lia.
    pose proof (Z.div_pos (- w) 8). lia.
Qed.

(** C10.  When [width / STEP <= 6] or [height / STEP <= 6], so for every
    frame narrower or shorter than 56 pixels, [estimateMotion] matches no
    block: a loop bound [nx - 4] or [ny - 4] is at most the start 2, and
    the field returned is zero throughout.  The buffers are arbitrary here:
    none of them is read. *)
Theorem estimateMotion_small_grid prev curr width height :
  (width `quot` MSTEP ≤ 6 ∨ height `quot` MSTEP ≤ 6 →
     estimateMotion prev curr width height = Some (zero_field width height)) ∧
  (width < 56 ∨ height < 56 →
     estimateMotion prev curr width height = Some (zero_field width height)) ∧
  ∀ v, v ∈ zero_field width height → v = MV.zero.
Proof.
  assert (width `quot` MSTEP ≤ 6 ∨ height `quot` MSTEP ≤ 6 →
    estimateMotion prev curr width height = Some (zero_field width height))
    as Hsmall.
  { intros Hs. unfold estimateMotion, full_search.
    destruct (decide (height `quot` MSTEP ≤ 6)) as [Hh|Hh].
    - rewrite for_range_empty by lia. done.
    - assert (width `quot` MSTEP ≤ 6) as Hw by lia.
      rewrite for_range_const; [done|].
      intros idy st _. apply for_range_empty. lia. }
  split_and!.
  - done.
  - intros [Hw|Hh]; apply Hsmall.
    + left. by apply quot_MSTEP_small.
    + right. by apply quot_MSTEP_small.
  - intros v Hv. unfold zero_field in Hv.
    by apply elem_of_replicate in Hv as [-> _].
Qed.

Lemma estimateMotion_small_grid_witness :
  estimateMotion [] [] 48 64 = Some (zero_field 48 64) ∧
  estimateMotion frame47 frame47 47 47 = Some (zero_field 47 47).
Proof.
  split.
  - apply (proj1 (estimateMotion_small_grid [] [] 48 64)).
    left. change (48 `quot` MSTEP) with 6. lia.
  - apply (proj1 (proj2 (estimateMotion_small_grid frame47 frame47 47 47))).
    left. lia.
Defined.

(** * Further properties of the code *)

(** ** Loops that return *)

Lemma for_loop_Some_inv {St} (I : Z → St → Prop) body n i (s s' : St) :
  for_loop n i body s = Some s' →
  I i s →
  (∀ j t t', i ≤ j < i + Z.of_nat n → I j t → body j t = Some t' →
     I (j + 1) t') →
  I (i + Z.of_nat n) s'.
Proof.
  revert i s. induction n as [|n IH]; intros i s Hrun Hi Hstep.
  - injection Hrun as <-. by replace (i + Z.of_nat 0) with i by lia.
  - cbn [for_loop] in Hrun. destruct (body i s) as [t|] eqn:Hb; [|done].
    cbn [mbind option_bind] in Hrun.
    replace (i + Z.of_nat (S n)) with (i + 1 + Z.of_nat n) by lia.
    apply (IH (i + 1) t); [done| |].
    + apply (Hstep i s); [lia|done|done].
    + intros j u u' Hj. apply Hstep. lia.
Qed.

Lemma for_range_Some_inv {St} (I : Z → St → Prop) body lo hi (s s' : St) :
  for_range lo hi body s = Some s' →
  I lo s →
  (∀ j t t', lo ≤ j < hi → I j t → body j t = Some t' → I (j + 1) t') →
  I (lo `max` hi) s'.
Proof.
  unfold for_range. intros Hrun Hi Hstep.
  replace (lo `max` hi) with (lo + Z.of_nat (Z.to_nat (hi - lo))) by lia.
  apply (for_loop_Some_inv I body _ lo s s' Hrun Hi).
  intros j t t' Hj. apply Hstep. lia.
Qed.

(** If a loop returns, each of its iterations returned. *)
Lemma for_loop_Some_each {St} body n i (s s' : St) :
  for_loop n i body s = Some s' →
  ∀ j, i ≤ j < i + Z.of_nat n → ∃ t t', body j t = Some t'.
Proof.
  revert i s. induction n as [|n IH]; intros i s Hrun j Hj; [lia|].
  cbn [for_loop] in Hrun. destruct (body i s) as [t|] eqn:Hb; [|done].
  cbn [mbind option_bind] in Hrun.
  destruct (decide (j = i)) as [->|]; [by exists s, t|].
  apply (IH (i + 1) t Hrun). lia.
Qed.

Lemma for_range_Some_each {St} body lo hi (s s' : St) :
  for_range lo hi body s = Some s' →
  ∀ j, lo ≤ j < hi → ∃ t t', body j t = Some t'.
Proof.
  unfold for_range. intros Hrun j Hj.
  apply (for_loop_Some_each body _ lo s s' Hrun). lia.
Qed.

Lemma for_loop_ext {St} (b1 b2 : Z → St → option St) n i s :
  (∀ j t, b1 j t = b2 j t) → for_loop n i b1 s = for_loop n i b2 s.
Proof.
  intros Hb. revert i s. induction n as [|n IH]; intros i s; [done|].
  cbn [for_loop]. rewrite Hb. destruct (b2 i s); [|done]. apply IH.
Qed.

(** A loop is its first part followed by the rest. *)
Lemma for_range_split {St} (body : Z → St → option St) lo mid hi s :
  lo ≤ mid ≤ hi →
  for_range lo hi body s
  = s1 ← for_range lo mid body s; for_range mid hi body s1.
Proof.
  intros Hm. rewrite !for_range_foldM.
  replace (hi - lo) with ((mid - lo) + (hi - mid)) by lia.
  rewrite seqZ_app by lia. rewrite foldM_app.
  replace (lo + (mid - lo)) with mid by lia.
  destruct (foldM body (seqZ lo (mid - lo)) s); [|done].
  cbn [mbind option_bind]. by rewrite for_range_foldM.
Qed.

Lemma for_range_first {St} (body : Z → St → option St) lo hi s :
  lo < hi →
  for_range lo hi body s = s1 ← body lo s; for_range (lo + 1) hi body s1.
Proof.
  intros Hlt. unfold for_range.
  replace (Z.to_nat (hi - lo)) with (S (Z.to_nat (hi - (lo + 1)))) by lia.
  done.
Qed.

Lemma load_Some_inv {A} (buf : list A) i v :
  load buf i = Some v → 0 ≤ i < Z.of_nat (length buf).
Proof.
  unfold load. case_bool_decide; [|done].
  intros Hl%lookup_lt_Some. lia.
Qed.

Lemma load_None {A} (buf : list A) i :
  Z.of_nat (length buf) ≤ i → load buf i = None.
Proof.
  intros Hi. unfold load. case_bool_decide; [|done].
  apply lookup_ge_None. lia.
Qed.

(** ** More on [compute_sad] *)

Lemma compute_sad_Some_in_bounds prev curr width px py cx cy s :
  compute_sad prev curr width px py cx cy = Some s →
  block_in_bounds prev width px py ∧ block_in_bounds curr width cx cy.
Proof.
  unfold compute_sad. intros Hrun.
  assert (∀ x y, 0 ≤ x < BSIZE → 0 ≤ y < BSIZE →
    0 ≤ (py + y) * width + (px + x) < Z.of_nat (length prev) ∧
    0 ≤ (cy + y) * width + (cx + x) < Z.of_nat (length curr)) as Hall.
  { intros x y Hx Hy.
    destruct (for_range_Some_each _ _ _ _ _ Hrun y Hy) as (t & t' & Hrow).
    destruct (for_range_Some_each _ _ _ _ _ Hrow x Hx) as (u & u' & Hpix).
    cbv beta in Hpix.
    destruct (load prev _) as [p|] eqn:Hp; [|done].
    destruct (load curr _) as [c|] eqn:Hc; [|done].
    split; by eapply load_Some_inv. }
  split; intros x y Hx Hy; by apply Hall.
Qed.

Lemma compute_sad_sym prev curr width px py cx cy :
  compute_sad prev curr width px py cx cy
  = compute_sad curr prev width cx cy px py.
Proof.
  unfold compute_sad, for_range.
  apply for_loop_ext. intros y sad. apply for_loop_ext. intros x t.
  destruct (load prev _) as [p|], (load curr _) as [c|]; try done.
  cbn [mbind option_bind]. f_equal. lia.
Qed.

Lemma sad_inv_ext prev curr width px py cx cy y x y' x' sad :
  (∀ vx vy, compared_before y x vx vy ↔ compared_before y' x' vx vy) →
  sad_inv prev curr width px py cx cy y x sad →
  sad_inv prev curr width px py cx cy y' x' sad.
Proof.
  intros Hext [Hs Hz]. split; [done|]. rewrite Hz.
  split; intros H vx vy Hv; apply H; by apply Hext.
Qed.

(** On in-bounds blocks the SAD is 0 exactly if the blocks agree. *)
Lemma compute_sad_zero_iff prev curr width px py cx cy :
  block_in_bounds prev width px py →
  block_in_bounds curr width cx cy →
  ∃ s, compute_sad prev curr width px py cx cy = Some s ∧ 0 ≤ s ∧
       (s = 0 ↔ blocks_equal prev curr width px py cx cy).
Proof.
  intros Hp Hc. unfold compute_sad.
  match goal with |- context [for_range ?lo ?hi ?body ?s] =>
    destruct (for_range_inv
      (λ y sad, sad_inv prev curr width px py cx cy y 0 sad) body lo hi s)
      as (s' & Hrun & Hs & Hz); [unfold BSIZE; lia| | |]
  end.
  - split; [done|]. split; [|done]. intros _ vx vy Hv.
    unfold compared_before, BSIZE in Hv. lia.
  - intros y sad Hy Hinv.
    match goal with |- context [for_range ?lo ?hi ?body ?s] =>
      destruct (for_range_inv
        (λ x sad, sad_inv prev curr width px py cx cy y x sad) body lo hi s)
        as (t & Hrun & Ht); [unfold BSIZE; lia|done| |]
    end.
    + intros x t Hx [Ht Hz].
      destruct (load_Some prev ((py + y) * width + (px + x))) as [p Hpl];
        [by apply Hp|].
      destruct (load_Some curr ((cy + y) * width + (cx + x))) as [c Hcl];
        [by apply Hc|].
      rewrite Hpl, Hcl. cbn [mbind option_bind].
      eexists; split; [done|]. split; [lia|]. split.
      * intros Hsum vx vy Hv.
        destruct (decide (vx = x ∧ vy = y)) as [[-> ->]|Hne].
        -- rewrite Hpl, Hcl. f_equal. apply pix_inj. lia.
        -- apply Hz; [lia|]. unfold compared_before in *. lia.
      * intros Hall.
        assert (t = 0) as ->.
        { apply Hz. intros vx vy Hv. apply Hall.
          unfold compared_before in *. lia. }
        specialize (Hall x y). rewrite Hpl, Hcl in Hall.
        assert (p = c) as ->.
        { assert (Some p = Some c) as [= ->]; [|done].
          apply Hall. unfold compared_before. lia. }
        lia.
    + exists t. split; [done|]. revert Ht. apply sad_inv_ext.
      intros vx vy. unfold compared_before, BSIZE. lia.
  - exists s'. split_and!; [done|done|]. rewrite Hz. unfold blocks_equal.
    split.
    + intros H x y Hx Hy. apply H. unfold compared_before. lia.
    + intros H vx vy Hv. apply H; unfold compared_before, BSIZE in *; lia.
Qed.

(** ** More on [match] *)

Lemma match_Some_in_bounds xy posx posy prev curr width r :
  match_ xy posx posy prev curr width = Some r →
  search_in_bounds prev curr width posx posy.
Proof.
  unfold match_. intros Hrun.
  assert (∀ mvx mvy, candidate mvx mvy →
    block_in_bounds prev width (posx + mvx) (posy + mvy) ∧
    block_in_bounds curr width posx posy) as Hall.
  { intros mvx mvy [Hx Hy].
    destruct (for_range_Some_each _ _ _ _ _ Hrun mvy Hy) as (t & t' & Hrow).
    destruct (for_range_Some_each _ _ _ _ _ Hrow mvx Hx) as ([m b] & u' & Hv).
    unfold match_visit in Hv.
    destruct (compute_sad prev curr width (posx + mvx) (posy + mvy) posx posy)
      as [s|] eqn:Hs; [|done].
    by eapply compute_sad_Some_in_bounds. }
  split.
  - apply (Hall 0 0). unfold candidate, BSIZE. lia.
  - intros mvx mvy Hc. by apply Hall.
Qed.

Lemma match_indep_always xy0 xy1 posx posy prev curr width :
  match_ xy0 posx posy prev curr width = match_ xy1 posx posy prev curr width.
Proof.
  destruct (match_ xy0 posx posy prev curr width) as [r0|] eqn:H0.
  - apply match_Some_in_bounds in H0 as Hv.
    rewrite <- H0. by apply match_indep.
  - destruct (match_ xy1 posx posy prev curr width) as [r1|] eqn:H1; [|done].
    apply match_Some_in_bounds in H1 as Hv.
    rewrite (match_indep xy0 xy1) in H0 by done. congruence.
Qed.

Lemma sad_at_zero_iff prev curr width posx posy mvx mvy :
  search_in_bounds prev curr width posx posy → candidate mvx mvy →
  sad_at prev curr width posx posy mvx mvy = Some 0 ↔
  blocks_equal prev curr width (posx + mvx) (posy + mvy) posx posy.
Proof.
  intros [Hcur Hprev] Hc. unfold sad_at.
  destruct (compute_sad_zero_iff prev curr width (posx + mvx) (posy + mvy)
              posx posy) as (s & -> & _ & Hz); [by apply Hprev|done|].
  rewrite <- Hz. split; [by intros [= ->]|by intros ->].
Qed.

(** X1.  [compute_sad] returns exactly when all 256 reads of both blocks are
    inside their buffers, and what it returns lies between 0 and
    256 * 255 = 65280, far inside the range of [int]. *)
Theorem compute_sad_returns_iff_in_bounds prev curr width px py cx cy :
  (is_Some (compute_sad prev curr width px py cx cy) ↔
   block_in_bounds prev width px py ∧ block_in_bounds curr width cx cy) ∧
  (∀ s, compute_sad prev curr width px py cx cy = Some s → 0 ≤ s ≤ 65280).
Proof.
  split; [split|].
  - intros [s Hs]. by eapply compute_sad_Some_in_bounds.
  - intros [Hp Hc].
    destruct (compute_sad_total prev curr width px py cx cy Hp Hc)
      as (s & -> & _). done.
  - intros s Hs. destruct (compute_sad_Some_in_bounds _ _ _ _ _ _ _ _ Hs)
      as [Hp Hc].
    destruct (compute_sad_total prev curr width px py cx cy Hp Hc)
      as (s' & Hs' & Hr). congruence.
Qed.

(** X2.  The cost is symmetric: exchanging the two buffers together with
    their anchors gives the same result, faults included. *)
Theorem compute_sad_symmetric prev curr width px py cx cy :
  compute_sad prev curr width px py cx cy
  = compute_sad curr prev width cx cy px py.
Proof. apply compute_sad_sym. Qed.

(** X3.  On in-bounds blocks the SAD is 0 exactly if the two blocks hold
    the same 256 samples; in particular a block compared with itself has
    SAD 0. *)
Theorem compute_sad_zero_iff_blocks_equal prev curr width px py cx cy :
  block_in_bounds prev width px py →
  block_in_bounds curr width cx cy →
  (compute_sad prev curr width px py cx cy = Some 0 ↔
   blocks_equal prev curr width px py cx cy) ∧
  compute_sad prev prev width px py px py = Some 0.
Proof.
  intros Hp Hc. split.
  - destruct (compute_sad_zero_iff prev curr width px py cx cy Hp Hc)
      as (s & -> & _ & Hz).
    rewrite <- Hz. split; [by intros [= ->]|by intros ->].
  - destruct (compute_sad_zero_iff prev prev width px py px py Hp Hp)
      as (s & -> & _ & Hz).
    f_equal. apply Hz. by intros x y _ _.
Qed.

Lemma compute_sad_zero_iff_blocks_equal_witness :
  (compute_sad prev47 curr47 47 19 14 16 16 = Some 0 ↔
   blocks_equal prev47 curr47 47 19 14 16 16) ∧
  compute_sad prev47 prev47 47 19 14 19 14 = Some 0.
Proof.
  apply (compute_sad_zero_iff_blocks_equal prev47 curr47 47 19 14 16 16);
    unfold block_in_bounds, BSIZE, prev47, curr47;
    rewrite length_insert, length_replicate; intros; lia.
Defined.

(** X4.  [match] returns exactly when every read of the search, the block
    of [curr] and the 1024 candidate blocks of [prev], is in bounds. *)
Theorem match_returns_iff_in_bounds xy posx posy prev curr width :
  is_Some (match_ xy posx posy prev curr width) ↔
  search_in_bounds prev curr width posx posy.
Proof.
  split.
  - intros [r Hr]. by eapply match_Some_in_bounds.
  - intros Hv.
    destruct (match_spec xy _ _ _ _ _ Hv) as (c & bx & by_ & -> & _). done.
Qed.

(** X5.  What [match] returns never depends on what [*x] and [*y] held at
    the call, so the values [full_search] leaves there from the previous
    cell cannot leak into the next one. *)
Theorem match_ignores_out_parameters xy0 xy1 posx posy prev curr width :
  match_ xy0 posx posy prev curr width = match_ xy1 posx posy prev curr width.
Proof. apply match_indep_always. Qed.

(** X6.  Exact-match recovery: if the block of [curr] at the anchor equals,
    sample for sample, the block of [prev] displaced by the candidate
    [(dx, dy)] and no other candidate block equals it, [match] returns
    [(dx, dy)] with cost 0. *)
Theorem match_exact_recovery xy posx posy prev curr width dx dy :
  search_in_bounds prev curr width posx posy →
  candidate dx dy →
  blocks_equal prev curr width (posx + dx) (posy + dy) posx posy →
  (∀ mvx mvy, candidate mvx mvy →
     blocks_equal prev curr width (posx + mvx) (posy + mvy) posx posy →
     mvx = dx ∧ mvy = dy) →
  match_ xy posx posy prev curr width = Some (0, Some (dx, dy)).
Proof.
  intros Hv Hd Heq Huniq.
  destruct (match_spec xy _ _ _ _ _ Hv)
    as (c & bx & by_ & -> & Hb & Hs & Hc & Hall).
  destruct (Hall _ _ Hd) as (s & Hs' & Hle & _).
  apply (sad_at_zero_iff _ _ _ _ _ _ _ Hv Hd) in Heq.
  assert (s = 0) as -> by congruence. assert (c = 0) as -> by lia.
  apply (sad_at_zero_iff _ _ _ _ _ _ _ Hv Hb) in Hs.
  destruct (Huniq _ _ Hb Hs) as [-> ->]. done.
Qed.

Lemma load_prev47 i :
  load prev47 i
  = if bool_decide (0 ≤ i < 2209)
    then Some (if bool_decide (i = 19 * 47 + 24) then "255" else "000")%byte
    else None.
Proof.
  unfold load, prev47. case_bool_decide as Hi.
  - destruct (decide (i < 2209)).
    + rewrite bool_decide_eq_true_2 by lia.
      case_bool_decide as Hk.
      * rewrite Hk. apply list_lookup_insert_eq.
        rewrite length_replicate. lia.
      * rewrite list_lookup_insert_ne by lia. apply lookup_replicate_2. lia.
    + rewrite bool_decide_eq_false_2 by lia.
      apply lookup_ge_None. rewrite length_insert, length_replicate. lia.
  - rewrite bool_decide_eq_false_2 by lia. done.
Qed.

Lemma load_curr47 i :
  load curr47 i
  = if bool_decide (0 ≤ i < 2209)
    then Some (if bool_decide (i = 21 * 47 + 21) then "255" else "000")%byte
    else None.
Proof.
  unfold load, curr47. case_bool_decide as Hi.
  - destruct (decide (i < 2209)).
    + rewrite bool_decide_eq_true_2 by lia.
      case_bool_decide as Hk.
      * rewrite Hk. apply list_lookup_insert_eq.
        rewrite length_replicate. lia.
      * rewrite list_lookup_insert_ne by lia. apply lookup_replicate_2. lia.
    + rewrite bool_decide_eq_false_2 by lia.
      apply lookup_ge_None. rewrite length_insert, length_replicate. lia.
  - rewrite bool_decide_eq_false_2 by lia. done.
Qed.

Lemma match_exact_recovery_witness :
  match_ None 16 16 prev47 curr47 47 = Some (0, Some (3, -2)).
Proof.
  apply (match_exact_recovery None 16 16 prev47 curr47 47 3 (-2)).
  - unfold search_in_bounds, block_in_bounds, candidate, BSIZE, prev47, curr47.
    rewrite !length_insert, !length_replicate. split; intros; lia.
  - unfold candidate, BSIZE. lia.
  - intros x y Hx Hy. unfold BSIZE in *.
    rewrite load_prev47, load_curr47.
    rewrite !bool_decide_eq_true_2 by lia.
    repeat case_bool_decide; (done || lia).
  - intros mvx mvy [Hmx Hmy] Heq. unfold BSIZE in *.
    specialize (Heq 5 5 ltac:(unfold BSIZE; lia) ltac:(unfold BSIZE; lia)).
    rewrite load_prev47, load_curr47 in Heq.
    rewrite !bool_decide_eq_true_2 in Heq by lia.
    rewrite (bool_decide_eq_true_2 ((16 + 5) * 47 + (16 + 5) = 21 * 47 + 21))
      in Heq by lia.
    case_bool_decide; [lia|done].
Defined.

Lemma match_self xy posx posy frame width :
  search_in_bounds frame frame width posx posy →
  ∃ dx dy,
    match_ xy posx posy frame frame width = Some (0, Some (dx, dy)) ∧
    candidate dx dy ∧ raster_le (0, 0) (dx, dy) ∧
    blocks_equal frame frame width (posx + dx) (posy + dy) posx posy.
Proof.
  intros Hv.
  destruct (match_spec xy _ _ _ _ _ Hv)
    as (c & bx & by_ & -> & Hb & Hs & Hc & Hall).
  assert (candidate 0 0) as H0 by (unfold candidate, BSIZE; lia).
  destruct (Hall _ _ H0) as (s & Hs' & Hle & Hlast).
  assert (sad_at frame frame width posx posy 0 0 = Some 0) as Hz.
  { apply sad_at_zero_iff; [done|done|]. intros x y _ _. f_equal. lia. }
  assert (s = 0) as -> by congruence. assert (c = 0) as -> by lia.
  exists bx, by_. split_and!; [done|done|by apply Hlast|].
  by apply sad_at_zero_iff.
Qed.

(** X7.  A frame searched against itself: the cost returned is 0, since the
    displacement (0, 0) has SAD 0, but the displacement returned is the
    last candidate whose block equals the block at the anchor, at or after
    (0, 0) in the order of the search; it is (0, 0) only if no later
    candidate block is equal as well. *)
Theorem match_same_frame xy posx posy frame width :
  search_in_bounds frame frame width posx posy →
  ∃ dx dy,
    match_ xy posx posy frame frame width = Some (0, Some (dx, dy)) ∧
    candidate dx dy ∧ raster_le (0, 0) (dx, dy) ∧
    blocks_equal frame frame width (posx + dx) (posy + dy) posx posy ∧
    ∀ mvx mvy, candidate mvx mvy →
      blocks_equal frame frame width (posx + mvx) (posy + mvy) posx posy →
      raster_le (mvx, mvy) (dx, dy).
Proof.
  intros Hv.
  destruct (match_self xy posx posy frame width Hv)
    as (dx & dy & Hm & Hc & Hr & Hb).
  exists dx, dy. split_and!; [done|done|done|done|].
  intros mvx mvy Hc' Hb'.
  destruct (match_spec xy _ _ _ _ _ Hv)
    as (c & bx & by_ & Hm' & _ & _ & _ & Hall).
  rewrite Hm in Hm'. injection Hm' as <- <- <-.
  destruct (Hall _ _ Hc') as (s & Hs & _ & Hlast).
  apply sad_at_zero_iff in Hb'; [|done|done].
  apply Hlast. congruence.
Qed.

Lemma match_same_frame_witness :
  ∃ dx dy,
    match_ None 16 16 frame47 frame47 47 = Some (0, Some (dx, dy)) ∧
    candidate dx dy ∧ raster_le (0, 0) (dx, dy) ∧
    blocks_equal frame47 frame47 47 (16 + dx) (16 + dy) 16 16 ∧
    ∀ mvx mvy, candidate mvx mvy →
      blocks_equal frame47 frame47 47 (16 + mvx) (16 + mvy) 16 16 →
      raster_le (mvx, mvy) (dx, dy).
Proof.
  apply (match_same_frame None 16 16 frame47 47).
  unfold search_in_bounds, block_in_bounds, candidate, BSIZE, frame47.
  rewrite length_replicate. split; intros; lia.
Defined.

(** ** More on [insertion_sort] *)

(** Sorting the first [length pre] entries of an array. *)
Lemma insertion_sort_prefix pre rest :
  ∃ s, insertion_sort (pre ++ rest) (Z.of_nat (length pre)) = Some (s ++ rest) ∧
       StronglySorted byte_le s ∧ s ≡ₚ pre.
Proof.
  destruct pre as [|x0 pre].
  { exists []. split_and!; [done|constructor|done]. }
  unfold insertion_sort.
  match goal with |- context [for_range ?lo ?hi ?body ?s] =>
    destruct (for_range_inv
      (λ idx t, ∃ l r, t = l ++ r ++ rest ∧ Z.of_nat (length l) = idx ∧
                       StronglySorted byte_le l ∧ l ++ r ≡ₚ x0 :: pre)
      body lo hi s) as (a' & Hrun & l & r & -> & Hlen & Hs & Hp)
  end.
  - cbn [length]. lia.
  - exists [x0], pre. split_and!; [done|done|repeat constructor|done].
  - intros idx t Hidx (l & r & -> & Hlen & Hs & Hp).
    apply Permutation_length in Hp as Hpl. rewrite length_app in Hpl.
    destruct r as [|x r]; [cbn [length] in *; lia|].
    unfold for_down. replace (Z.to_nat (idx - 0)) with (length l) by lia.
    rewrite <- Hlen. cbn [app].
    destruct (bubble_down l x (r ++ rest) Hs) as (l1 & -> & Hs1 & Hp1).
    eexists; split; [done|]. exists l1, r. split_and!; [done| |done|].
    + apply Permutation_length in Hp1. rewrite Hp1, length_app.
      cbn [length]. lia.
    + rewrite <- Hp, Hp1, <- app_assoc. done.
  - apply Permutation_length in Hp as Hpl. rewrite length_app in Hpl.
    assert (r = []) as -> by (destruct r; [done|cbn [length] in *; lia]).
    rewrite app_nil_r in Hp. exists l. by rewrite Hrun.
Qed.

Lemma compare_swap_out_of_bounds (a : list uint8) jdx :
  Z.of_nat (length a) ≤ jdx → compare_swap jdx a = None.
Proof.
  intros Hj. unfold compare_swap. rewrite (load_None a jdx) by lia. done.
Qed.

Lemma for_down_out_of_bounds (a : list uint8) idx :
  0 < idx → Z.of_nat (length a) ≤ idx → for_down idx 0 compare_swap a = None.
Proof.
  intros Hidx Hlen. unfold for_down.
  replace (Z.to_nat (idx - 0)) with (S (Z.to_nat (idx - 1))) by lia.
  cbn [for_down_loop]. by rewrite compare_swap_out_of_bounds.
Qed.

(** X8.  [insertion_sort] with a [size] up to the length of the array sorts
    its first [size] entries ascending and leaves the others where they
    are; with a [size] of at most 1 it changes nothing. *)
Theorem insertion_sort_sorts_prefix (a : list uint8) size :
  (0 ≤ size ≤ Z.of_nat (length a) →
     ∃ s, insertion_sort a size = Some (s ++ drop (Z.to_nat size) a) ∧
          Sorted byte_le s ∧ s ≡ₚ take (Z.to_nat size) a) ∧
  (size ≤ 1 → insertion_sort a size = Some a).
Proof.
  split.
  - intros Hsize.
    destruct (insertion_sort_prefix (take (Z.to_nat size) a)
                (drop (Z.to_nat size) a)) as (s & Hrun & Hs & Hp).
    rewrite take_drop, length_take_le, Z2Nat.id in Hrun by lia.
    exists s. split_and!; [done| |done].
    by apply StronglySorted_Sorted.
  - intros Hsize. unfold insertion_sort. apply for_range_empty. lia.
Qed.

Lemma insertion_sort_sorts_prefix_witness :
  (∃ s, insertion_sort [ "005"; "003"; "009"; "001" ]%byte 3
        = Some (s ++ drop (Z.to_nat 3) [ "005"; "003"; "009"; "001" ]%byte) ∧
        Sorted byte_le s ∧
        s ≡ₚ take (Z.to_nat 3) [ "005"; "003"; "009"; "001" ]%byte) ∧
  insertion_sort [ "005"; "003"; "009"; "001" ]%byte 1
  = Some [ "005"; "003"; "009"; "001" ]%byte.
Proof.
  destruct (insertion_sort_sorts_prefix
              [ "005"; "003"; "009"; "001" ]%byte 3) as [H3 _].
  destruct (insertion_sort_sorts_prefix
              [ "005"; "003"; "009"; "001" ]%byte 1) as [_ H1].
  split; [apply H3; cbn [length]; lia|apply H1; lia].
Defined.

(** X9.  [insertion_sort] with a [size] beyond the length of the array (and
    above 1) reads past its end. *)
Theorem insertion_sort_size_too_large (a : list uint8) size :
  Z.of_nat (length a) < size → 1 < size → insertion_sort a size = None.
Proof.
  intros Hlen Hsize. unfold insertion_sort.
  rewrite (for_range_split _ 1 (1 `max` Z.of_nat (length a)) size) by lia.
  assert (∃ t, for_range 1 (1 `max` Z.of_nat (length a))
                 (λ idx pix_array, for_down idx 0 compare_swap pix_array) a
               = Some t ∧ length t = length a) as (t & -> & Ht).
  { destruct (decide (1 ≤ Z.of_nat (length a))).
    - replace (1 `max` Z.of_nat (length a)) with (Z.of_nat (length a)) by lia.
      destruct (insertion_sort_sorts a) as (t & Hrun & _ & Hp).
      exists t. split; [done|]. by apply Permutation_length.
    - exists a. split; [|done]. apply for_range_empty. lia. }
  cbn [mbind option_bind]. rewrite for_range_first by lia. cbv beta.
  rewrite for_down_out_of_bounds by lia. done.
Qed.

Lemma insertion_sort_size_too_large_witness :
  insertion_sort [ "005"; "003"; "009"; "001" ]%byte 5 = None.
Proof.
  apply (insertion_sort_size_too_large [ "005"; "003"; "009"; "001" ]%byte 5);
    cbn [length]; lia.
Defined.

(** ** More on [matrix_to_array] and [median3x3] *)

(** X10.  [matrix_to_array] overwrites all nine entries of the array: what
    it returns is the nine samples around the centre, row by row, whatever
    the array held before; it returns exactly when those nine reads are
    inside the image. *)
Theorem matrix_to_array_overwrites pa pa' image width row col :
  length pa = 9%nat → length pa' = 9%nat →
  matrix_to_array pa image (row * width + col) width
    = neighborhood image width row col ∧
  matrix_to_array pa image (row * width + col) width
    = matrix_to_array pa' image (row * width + col) width ∧
  (is_Some (matrix_to_array pa image (row * width + col) width) ↔
   ∀ dx dy, -1 ≤ dx ≤ 1 → -1 ≤ dy ≤ 1 →
     0 ≤ (row + dy) * width + (col + dx) < Z.of_nat (length image)).
Proof.
  intros Hpa Hpa'. rewrite !matrix_to_array_neighborhood by done.
  split_and!; [done|done|].
  unfold neighborhood. rewrite mapM_is_Some, Forall_forall. split.
  - intros Hall dx dy Hdx Hdy.
    destruct (Hall (dy, dx)) as [v Hv]; [|by eapply load_Some_inv].
    assert (dx = -1 ∨ dx = 0 ∨ dx = 1) as [-> | [-> | ->]] by lia;
      (assert (dy = -1 ∨ dy = 0 ∨ dy = 1) as [-> | [-> | ->]] by lia);
      repeat first [apply list_elem_of_here | apply list_elem_of_further].
  - intros Hall [dy dx] Hd. cbn [compose fst snd].
    destruct (load_Some image ((row + dy) * width + (col + dx))) as [v ->];
      [|done].
    repeat (apply elem_of_cons in Hd as [[= -> ->]|Hd]; [apply Hall; lia|]).
    by apply elem_of_nil in Hd.
Qed.

Lemma matrix_to_array_overwrites_witness :
  matrix_to_array (replicate 9 "000"%byte) frame4 (1 * 4 + 1) 4
    = neighborhood frame4 4 1 1 ∧
  matrix_to_array (replicate 9 "000"%byte) frame4 (1 * 4 + 1) 4
    = matrix_to_array (replicate 9 "255"%byte) frame4 (1 * 4 + 1) 4 ∧
  (is_Some (matrix_to_array (replicate 9 "000"%byte) frame4 (1 * 4 + 1) 4) ↔
   ∀ dx dy, -1 ≤ dx ≤ 1 → -1 ≤ dy ≤ 1 →
     0 ≤ (1 + dy) * 4 + (1 + dx) < Z.of_nat (length frame4)).
Proof.
  apply (matrix_to_array_overwrites
           (replicate 9 "000"%byte) (replicate 9 "255"%byte) frame4 4 1 1);
    reflexivity.
Defined.

Lemma median_pixel_length width p (img img' : list uint8) :
  median_pixel width p img = Some img' → length img' = length img.
Proof.
  unfold median_pixel. intros H.
  destruct (neighborhood img width p.1 p.2); [|done].
  cbn [mbind option_bind] in H. destruct (median9 l); [|done].
  cbn [mbind option_bind] in H. unfold store in H.
  case_bool_decide; [|done]. injection H as <-. apply length_insert.
Qed.

Lemma neighborhood_out_of_bounds (img : list uint8) width row col :
  Z.of_nat (length img) ≤ (row + 1) * width + (col + 1) →
  neighborhood img width row col = None.
Proof.
  intros Hlen. unfold neighborhood. apply mapM_None_2, Exists_exists.
  exists (1, 1). split.
  - repeat first [apply list_elem_of_here | apply list_elem_of_further].
  - by apply load_None.
Qed.

Lemma median_pixel_out_of_bounds (img : list uint8) width row col :
  Z.of_nat (length img) ≤ (row + 1) * width + (col + 1) →
  median_pixel width (row, col) img = None.
Proof.
  intros Hlen. unfold median_pixel. cbn [fst snd].
  by rewrite neighborhood_out_of_bounds.
Qed.

(** X11.  The filter only moves samples around: every value of the
    filtered frame occurs somewhere in the frame it was given. *)
Theorem median3x3_no_new_values image width height :
  Z.of_nat (length image) = width * height →
  ∃ out, median3x3 image width height = Some out ∧
         ∀ v, v ∈ out → v ∈ image.
Proof.
  intros Hlen.
  destruct (median3x3_invariant width height
              (λ img, ∀ v, v ∈ img → v ∈ image) image)
    as (out & Hrun & Hout & _); [done|done| |by exists out].
  intros img m row col Hinv _ Hm _ _ v Hv.
  apply list_elem_of_lookup in Hv as [i Hi].
  apply list_lookup_insert_Some in Hi as [(_ & <- & _)|[_ Hi]].
  - by apply Hinv.
  - apply Hinv. by eapply list_elem_of_lookup_2.
Qed.

Lemma median3x3_no_new_values_witness :
  ∃ out, median3x3 frame4 4 4 = Some out ∧ ∀ v, v ∈ out → v ∈ frame4.
Proof. apply (median3x3_no_new_values frame4 4 4). reflexivity. Defined.

(** X12.  A frame narrower or lower than three pixels has no interior:
    [median3x3] returns the buffer as it is, without reading it. *)
Theorem median3x3_no_interior image width height :
  width < 3 ∨ height < 3 → median3x3 image width height = Some image.
Proof.
  intros Hsmall. unfold median3x3.
  rewrite for_range_const; [done|].
  intros row st Hrow. apply for_range_empty. lia.
Qed.

Lemma median3x3_no_interior_witness :
  median3x3 [] 2 1000 = Some [] ∧ median3x3 frame4 4 2 = Some frame4.
Proof.
  split.
  - apply (median3x3_no_interior [] 2 1000). lia.
  - apply (median3x3_no_interior frame4 4 2). lia.
Defined.

(** X13.  With an interior, a buffer shorter than [width * height] makes
    the filter read past its end: the last interior pixel has the last
    sample of the frame in its neighbourhood. *)
Theorem median3x3_short_buffer_faults image width height :
  3 ≤ width → 3 ≤ height →
  Z.of_nat (length image) < width * height →
  median3x3 image width height = None.
Proof.
  intros Hw Hh Hlen. rewrite median3x3_refines, medianFilter_spec_loops.
  rewrite (for_range_split _ 1 (height - 2) (height - 1)) by lia.
  match goal with |- context [for_range 1 (height - 2) ?body image] =>
    destruct (for_range 1 (height - 2) body image) as [img1|] eqn:Hrows;
      [|done];
    assert (length img1 = length image) as Hl1
  end.
  { apply (for_range_Some_inv (λ _ img, length img = length image)
             _ _ _ _ _ Hrows); [done|].
    intros row t t' _ Ht Hrow. rewrite <- Ht.
    apply (for_range_Some_inv (λ _ img, length img = length t)
             _ _ _ _ _ Hrow); [done|].
    intros col u u' _ Hu Hpix. rewrite <- Hu.
    by eapply median_pixel_length. }
  cbn [mbind option_bind]. rewrite for_range_first by lia. cbv beta.
  rewrite (for_range_split _ 1 (width - 2) (width - 1)) by lia.
  match goal with |- context [for_range 1 (width - 2) ?body img1] =>
    destruct (for_range 1 (width - 2) body img1) as [img2|] eqn:Hcols;
      [|done];
    assert (length img2 = length img1) as Hl2
  end.
  { apply (for_range_Some_inv (λ _ img, length img = length img1)
             _ _ _ _ _ Hcols); [done|].
    intros col u u' _ Hu Hpix. rewrite <- Hu.
    by eapply median_pixel_length. }
  cbn [mbind option_bind]. rewrite for_range_first by lia. cbv beta.
  rewrite median_pixel_out_of_bounds; [done|]. nia.
Qed.

Lemma median3x3_short_buffer_faults_witness : median3x3 frame4 4 5 = None.
Proof.
  apply (median3x3_short_buffer_faults frame4 4 5); [lia|lia|].
  cbn [length frame4]. lia.
Defined.

(** X14.  A frame of one value, of any size, is a fixed point of the
    filter. *)
Theorem median3x3_constant_frame (c : uint8) n width height :
  Z.of_nat n = width * height →
  median3x3 (replicate n c) width height = Some (replicate n c).
Proof. apply median3x3_constant. Qed.

Lemma median3x3_constant_frame_witness :
  median3x3 (replicate 12 "007"%byte) 4 3 = Some (replicate 12 "007"%byte).
Proof. apply (median3x3_constant_frame "007"%byte 12 4 3). lia. Defined.

(** ** More on [full_search] and [estimateMotion] *)

Lemma store_None {A} (buf : list A) i v :
  Z.of_nat (length buf) ≤ i → store buf i v = None.
Proof. intros Hi. unfold store. by rewrite bool_decide_eq_false_2 by lia. Qed.

(** X15.  [full_search] writes the computed cells and nothing else: given
    any field of [nx * ny] entries, zeroed or not, it returns a field of
    the same length in which every cell outside the computed range still
    holds what it held.  The zero margin is the caller's [memset], not the
    work of [full_search]. *)
Theorem full_search_keeps_margin prev curr width height (mv0 : list MVector) :
  Z.of_nat (length prev) = width * height →
  Z.of_nat (length curr) = width * height →
  length mv0 = Z.to_nat ((width `quot` MSTEP) * (height `quot` MSTEP)) →
  ∃ mv,
    full_search mv0 prev curr width height = Some mv ∧
    length mv = length mv0 ∧
    ∀ idx idy,
      0 ≤ idx < width `quot` MSTEP → 0 ≤ idy < height `quot` MSTEP →
      ¬ computed_cell (width `quot` MSTEP) (height `quot` MSTEP) idx idy →
      mv !! Z.to_nat (idy * (width `quot` MSTEP) + idx)
      = mv0 !! Z.to_nat (idy * (width `quot` MSTEP) + idx).
Proof.
  intros Hp Hc Hlen.
  destruct (full_search_spec prev curr width height Hp Hc _ _ eq_refl eq_refl
              mv0 Hlen) as (mv & Hrun & Hl & _ & Hrest & _).
  exists mv. split_and!; [done|done|].
  intros idx idy Hx Hy Hncell. apply Hrest.
  intros i j Hcell Heq.
  pose proof (cell_index_range _ _ idx idy Hx Hy).
  rewrite Z2Nat.id in Heq by lia.
  assert (0 ≤ i < width `quot` MSTEP) as Hi
    by (unfold computed_cell in Hcell; lia).
  apply cell_index_inj in Heq as [-> ->]; done.
Qed.

Lemma full_search_keeps_margin_witness :
  ∃ mv,
    full_search (replicate 64 (MV.mk 7 7)) frame64 frame64 64 64 = Some mv ∧
    length mv = length (replicate 64 (MV.mk 7 7)) ∧
    ∀ idx idy,
      0 ≤ idx < 64 `quot` MSTEP → 0 ≤ idy < 64 `quot` MSTEP →
      ¬ computed_cell (64 `quot` MSTEP) (64 `quot` MSTEP) idx idy →
      mv !! Z.to_nat (idy * (64 `quot` MSTEP) + idx)
      = replicate 64 (MV.mk 7 7) !! Z.to_nat (idy * (64 `quot` MSTEP) + idx).
Proof.
  apply (full_search_keeps_margin frame64 frame64 64 64
           (replicate 64 (MV.mk 7 7))).
  - unfold frame64. rewrite length_replicate. lia.
  - unfold frame64. rewrite length_replicate. lia.
  - reflexivity.
Defined.

(** X16.  [full_search] does not check the field it is given: on frames
    of [width * height] samples, when there is a cell to compute and the
    field ends at or before the first one, index [2 * nx + 2], the first
    store is out of bounds. *)
Theorem full_search_short_field_faults prev curr width height
    (mv0 : list MVector) :
  Z.of_nat (length prev) = width * height →
  Z.of_nat (length curr) = width * height →
  7 ≤ width `quot` MSTEP → 7 ≤ height `quot` MSTEP →
  Z.of_nat (length mv0) ≤ 2 * (width `quot` MSTEP) + 2 →
  full_search mv0 prev curr width height = None.
Proof.
  intros Hp Hc Hnx Hny Hlen. unfold full_search.
  rewrite for_range_first by lia. cbv beta.
  rewrite for_range_first by lia. cbv beta iota.
  assert (search_in_bounds prev curr width (2 * MSTEP) (2 * MSTEP)) as Hv.
  { apply (grid_search_in_bounds prev curr width height Hp Hc).
    unfold computed_cell. lia. }
  destruct (match_spec None _ _ _ _ _ Hv) as (c & x & y & -> & _).
  cbn [mbind option_bind].
  rewrite (store_None mv0 (2 * (width `quot` MSTEP) + 2)) by lia. done.
Qed.

Lemma full_search_short_field_faults_witness :
  full_search [] frame64 frame64 64 64 = None.
Proof.
  apply (full_search_short_field_faults frame64 frame64 64 64 []).
  - unfold frame64. rewrite length_replicate. lia.
  - unfold frame64. rewrite length_replicate. lia.
  - change (64 `quot` MSTEP) with 8. lia.
  - change (64 `quot` MSTEP) with 8. lia.
  - change (64 `quot` MSTEP) with 8. cbn [length]. lia.
Defined.

(** X17.  Two identical frames of one value, of any size: every computed
    vector is (15, 15), the last candidate of the search, and every other
    cell is the zero vector. *)
Theorem estimateMotion_constant_frames (c : uint8) n width height :
  Z.of_nat n = width * height →
  ∃ field,
    estimateMotion (replicate n c) (replicate n c) width height = Some field ∧
    ∀ idx idy,
      0 ≤ idx < width `quot` MSTEP → 0 ≤ idy < height `quot` MSTEP →
      field !! Z.to_nat (idy * (width `quot` MSTEP) + idx)
      = Some (if bool_decide (computed_cell (width `quot` MSTEP)
                                (height `quot` MSTEP) idx idy)
              then MV.mk 15 15 else MV.zero).
Proof.
  intros Hn.
  assert (Z.of_nat (length (replicate n c)) = width * height) as Hlen
    by by rewrite length_replicate.
  unfold estimateMotion.
  destruct (full_search_spec _ _ width height Hlen Hlen _ _ eq_refl eq_refl
              (zero_field width height) (length_zero_field width height))
    as (field & Hrun & _ & Hcomp & Hrest & _).
  exists field. split; [done|]. intros idx idy Hx Hy.
  pose proof (cell_index_range _ _ idx idy Hx Hy).
  case_bool_decide as Hcell.
  - destruct (Hcomp idx idy Hcell) as (cost & x & y & Hm & _ & ->).
    rewrite match_constant in Hm
      by by apply (grid_search_in_bounds _ _ width height).
    by injection Hm as <- <- <-.
  - rewrite Hrest.
    + unfold zero_field. apply lookup_replicate_2. lia.
    + intros i j Hij Heq. rewrite Z2Nat.id in Heq by lia.
      assert (0 ≤ i < width `quot` MSTEP) as Hi
        by (unfold computed_cell in Hij; lia).
      apply cell_index_inj in Heq as [-> ->]; done.
Qed.

Lemma estimateMotion_constant_frames_witness :
  ∃ field,
    estimateMotion (replicate 4096 "200"%byte) (replicate 4096 "200"%byte)
      64 64 = Some field ∧
    ∀ idx idy,
      0 ≤ idx < 64 `quot` MSTEP → 0 ≤ idy < 64 `quot` MSTEP →
      field !! Z.to_nat (idy * (64 `quot` MSTEP) + idx)
      = Some (if bool_decide (computed_cell (64 `quot` MSTEP)
                                (64 `quot` MSTEP) idx idy)
              then MV.mk 15 15 else MV.zero).
Proof.
  apply (estimateMotion_constant_frames "200"%byte 4096 64 64). lia.
Defined.

(** X18.  Two identical frames, whatever they show: every vector of the
    field lies at or after (0, 0) in the order of the search, so its [y]
    component is never negative, and its [x] component is not negative
    when [y] is 0.  It need not be (0, 0). *)
Theorem estimateMotion_same_frame frame width height :
  Z.of_nat (length frame) = width * height →
  ∃ field,
    estimateMotion frame frame width height = Some field ∧
    ∀ idx idy,
      0 ≤ idx < width `quot` MSTEP → 0 ≤ idy < height `quot` MSTEP →
      ∃ v, field !! Z.to_nat (idy * (width `quot` MSTEP) + idx) = Some v ∧
           0 ≤ MV.y v ≤ 15 ∧ -16 ≤ MV.x v ≤ 15 ∧
           (MV.y v = 0 → 0 ≤ MV.x v).
Proof.
  intros Hlen. unfold estimateMotion.
  destruct (full_search_spec _ _ width height Hlen Hlen _ _ eq_refl eq_refl
              (zero_field width height) (length_zero_field width height))
    as (field & Hrun & _ & Hcomp & Hrest & _).
  exists field. split; [done|]. intros idx idy Hx Hy.
  pose proof (cell_index_range _ _ idx idy Hx Hy).
  destruct (decide (computed_cell (width `quot` MSTEP)
                      (height `quot` MSTEP) idx idy)) as [Hcell|Hcell].
  - destruct (Hcomp idx idy Hcell) as (cost & x & y & Hm & Hxy & ->).
    destruct (match_self None (idx * MSTEP) (idy * MSTEP) frame width)
      as (dx & dy & Hm' & _ & Hr & _).
    { by apply (grid_search_in_bounds _ _ width height). }
    rewrite Hm' in Hm. injection Hm as <- <- <-.
    eexists; split; [done|]. cbn [MV.x MV.y]. raster.
  - exists MV.zero. split; [|cbn; lia]. rewrite Hrest.
    + unfold zero_field. apply lookup_replicate_2. lia.
    + intros i j Hij Heq. rewrite Z2Nat.id in Heq by lia.
      assert (0 ≤ i < width `quot` MSTEP) as Hi
        by (unfold computed_cell in Hij; lia).
      apply cell_index_inj in Heq as [-> ->]; done.
Qed.

Lemma estimateMotion_same_frame_witness :
  ∃ field,
    estimateMotion frame64 frame64 64 64 = Some field ∧
    ∀ idx idy,
      0 ≤ idx < 64 `quot` MSTEP → 0 ≤ idy < 64 `quot` MSTEP →
      ∃ v, field !! Z.to_nat (idy * (64 `quot` MSTEP) + idx) = Some v ∧
           0 ≤ MV.y v ≤ 15 ∧ -16 ≤ MV.x v ≤ 15 ∧
           (MV.y v = 0 → 0 ≤ MV.x v).
Proof.
  apply (estimateMotion_same_frame frame64 64 64).
  unfold frame64. rewrite length_replicate. lia.
Defined.

(** ** More on [compute_statistics] and [quick_sqrt] *)

Lemma quick_sqrt_zero_vector :
  quick_sqrt (float_of_int (MV.x MV.zero * MV.x MV.zero
                            + MV.y MV.zero * MV.y MV.zero)) = sqrt0.
Proof. vm_cast_no_check (eq_refl sqrt0). Qed.

(** X19.  [compute_statistics] does not guard the division by the number
    of entries: with [size] 0 nothing is read, [min] and [max] are 0 and
    the mean is 0 / 0, a NaN. *)
Theorem compute_statistics_empty (mv : list MVector) :
  compute_statistics mv 0 = Some (S754_nan, fzero, fzero).
Proof.
  unfold compute_statistics. rewrite for_range_empty by lia. reflexivity.
Qed.

(** X20.  [compute_statistics] trusts [size]: with a [size] beyond the
    length of the field it reads past the end. *)
Theorem compute_statistics_size_too_large (mv : list MVector) size :
  Z.of_nat (length mv) < size → compute_statistics mv size = None.
Proof.
  intros Hsize. unfold compute_statistics.
  rewrite (for_range_split _ 0 (Z.of_nat (length mv)) size) by lia.
  match goal with |- context [for_range 0 (Z.of_nat (length mv)) ?body ?s] =>
    destruct (for_range_inv (λ _ _, True) body 0 (Z.of_nat (length mv)) s)
      as (st & -> & _); [lia|done| |]
  end.
  - intros idx [[[len total] mn] mx] Hidx _.
    destruct (load_Some mv idx) as [v ->]; [lia|].
    cbn [mbind option_bind]. eexists; split; done.
  - cbn [mbind option_bind]. rewrite for_range_first by lia.
    destruct st as [[[len total] mn] mx]. cbv beta iota.
    rewrite (load_None mv (Z.of_nat (length mv))) by lia. done.
Qed.

Lemma compute_statistics_size_too_large_witness :
  compute_statistics field3 4 = None.
Proof.
  apply (compute_statistics_size_too_large field3 4). cbn [length field3]. lia.
Defined.

(** X21.  A field without motion does not have maximum 0: for a field of
    [n >= 1] zero vectors [max] is what [quick_sqrt] returns for 0, about
    2.24e-20, which is above 0. *)
Theorem compute_statistics_zero_field (n : nat) :
  (1 ≤ n)%nat →
  (∃ mean,
     compute_statistics (replicate n MV.zero) (Z.of_nat n)
     = Some (mean, fzero, sqrt0)) ∧
  flt fzero sqrt0 = true.
Proof.
  intros Hn. split; [|reflexivity]. unfold compute_statistics.
  match goal with |- context [for_range ?lo ?hi ?body ?s] =>
    destruct (for_range_inv
      (λ idx (st : float * float * float * float),
         st.1.2 = fzero ∧
         st.2 = if bool_decide (idx = 0) then fzero else sqrt0)
      body lo hi s) as ([[[len total] mn] mx] & -> & Hmn & Hmx);
      [lia|done| |]
  end.
  - intros idx [[[len total] mn] mx] Hidx [Hmn Hmx].
    cbn [fst snd] in Hmn, Hmx. subst mn mx.
    destruct (load_Some (replicate n MV.zero) idx) as [v Hv];
      [rewrite length_replicate; lia|].
    rewrite Hv. apply load_replicate in Hv as ->.
    cbn [mbind option_bind]. cbv zeta. rewrite quick_sqrt_zero_vector.
    eexists; split; [done|]. cbn [fst snd]. split; [done|].
    rewrite (bool_decide_eq_false_2 (idx + 1 = 0)) by lia.
    by case_bool_decide.
  - cbn [fst snd] in Hmn, Hmx. subst mn.
    rewrite bool_decide_eq_false_2 in Hmx by lia. subst mx.
    cbn [mbind option_bind]. eauto.
Qed.

Lemma compute_statistics_zero_field_witness :
  (∃ mean,
     compute_statistics (replicate 64 MV.zero) (Z.of_nat 64)
     = Some (mean, fzero, sqrt0)) ∧
  flt fzero sqrt0 = true.
Proof. apply (compute_statistics_zero_field 64). lia. Defined.

Lemma within_of_sqrt_b_spec eps r n :
  within_of_sqrt_b eps r n = true → within_of_sqrt eps r n.
Proof.
  unfold within_of_sqrt_b, within_of_sqrt.
  rewrite !andb_true_iff, negb_true_iff, !Qle_bool_iff.
  intros [[Hpos Hlo] Hhi]. split_and!; [|done|done].
  apply Qnot_le_lt. intros Hle. apply Qle_bool_iff in Hle. congruence.
Qed.

(** The second table of squared magnitudes, checked by evaluation. *)
Lemma precise_table_checked :
  sorted_pairs_check
    (λ sq, precise_check (quick_sqrt (float_of_int sq)) sq) 129 = true.
Proof. vm_cast_no_check (eq_refl true). Qed.

Lemma precise_check_spec r sq :
  precise_check r sq = true → sq ≠ 0 →
  within_of_sqrt eps_2e7 (float_value r) sq.
Proof.
  unfold precise_check. intros [Hz|Hacc]%orb_true_iff Hsq.
  - by apply bool_decide_eq_true_1 in Hz.
  - by apply within_of_sqrt_b_spec.
Qed.

Lemma precise_check_int8 x y :
  int8_range x → int8_range y →
  precise_check (quick_sqrt (float_of_int (x * x + y * y))) (x * x + y * y)
  = true.
Proof.
  unfold int8_range. intros Hx Hy.
  rewrite <- (Z.abs_square x), <- (Z.abs_square y).
  destruct (decide (Z.abs x ≤ Z.abs y)).
  - exact (sorted_pairs_check_spec _ 129 (Z.abs x) (Z.abs y)
             precise_table_checked ltac:(lia) ltac:(lia)).
  - rewrite Z.add_comm.
    exact (sorted_pairs_check_spec _ 129 (Z.abs y) (Z.abs x)
             precise_table_checked ltac:(lia) ltac:(lia)).
Qed.

(** X22.  The three Newton steps make [quick_sqrt] far more accurate than
    0.2 percent: on every nonzero squared magnitude of an [int8] vector the
    result is within two parts in ten million of the square root. *)
Theorem quick_sqrt_two_parts_in_ten_million x y :
  int8_range x → int8_range y → x * x + y * y ≠ 0 →
  within_of_sqrt eps_2e7
    (float_value (quick_sqrt (float_of_int (x * x + y * y))))
    (x * x + y * y).
Proof.
  intros Hx Hy Hnz.
  exact (precise_check_spec _ _ (precise_check_int8 x y Hx Hy) Hnz).
Qed.

Lemma quick_sqrt_two_parts_in_ten_million_witness :
  within_of_sqrt eps_2e7
    (float_value (quick_sqrt (float_of_int (15 * 15 + 15 * 15))))
    (15 * 15 + 15 * 15).
Proof.
  apply (quick_sqrt_two_parts_in_ten_million 15 15);
    unfold int8_range; lia.
Defined.

(** ** [print_motion_vectors] *)

Lemma length_append (s1 s2 : string) :
  String.length (s1 +:+ s2) = (String.length s1 + String.length s2)%nat.
Proof.
  induction s1 as [|a s1 IH]; [done|].
  change (S (String.length (s1 +:+ s2))
          = S (String.length s1 + String.length s2)%nat).
  by f_equal.
Qed.

Lemma displacement_pairs_check_spec (p : Z → Z → bool) x y :
  displacement_pairs_check p = true →
  -16 ≤ x ≤ 15 → -16 ≤ y ≤ 15 → p x y = true.
Proof.
  unfold displacement_pairs_check. intros Ht Hx Hy.
  rewrite forallb_forall in Ht.
  assert (In x (seqZ (-16) 32)) as Hix
    by (apply list_elem_of_In, elem_of_seqZ; lia).
  specialize (Ht x Hix). rewrite forallb_forall in Ht.
  apply Ht, list_elem_of_In, elem_of_seqZ. lia.
Qed.

Lemma int8_check_spec (p : Z → bool) z :
  int8_check p = true → int8_range z → p z = true.
Proof.
  unfold int8_check, int8_range. intros Ht Hz.
  rewrite forallb_forall in Ht.
  apply Ht, list_elem_of_In, elem_of_seqZ. lia.
Qed.

Lemma token_table_checked : displacement_pairs_check token_check = true.
Proof. vm_cast_no_check (eq_refl true). Qed.

Lemma pretty_int8_table_checked :
  int8_check (λ z, bool_decide (String.length (pretty z) ≤ 4)%nat) = true.
Proof. vm_cast_no_check (eq_refl true). Qed.

Lemma token_check_spec x y :
  token_check x y = true →
  ∃ stemp,
    sprintf_vector (MV.mk x y) = Some stemp ∧
    String.length (printf_7s stemp) = 7%nat ∧
    (String.get 0 (printf_7s stemp) = Some " "%char ↔ ¬ (x ≤ -10 ∧ y ≤ -10)).
Proof.
  unfold token_check. destruct (sprintf_vector (MV.mk x y)) as [stemp|];
    [|done].
  intros [H7 Hsp]%andb_true_iff. exists stemp.
  apply bool_decide_eq_true_1 in H7. apply bool_decide_eq_true_1 in Hsp. done.
Qed.

Lemma sprintf_vector_in_range v :
  mv_in_range v →
  ∃ stemp,
    sprintf_vector v = Some stemp ∧
    String.length (printf_7s stemp) = 7%nat ∧
    (String.get 0 (printf_7s stemp) = Some " "%char
     ↔ ¬ (MV.x v ≤ -10 ∧ MV.y v ≤ -10)).
Proof.
  destruct v as [x y]. intros [Hx Hy]. cbn [MV.x MV.y] in *.
  apply token_check_spec.
  exact (displacement_pairs_check_spec token_check x y token_table_checked
           Hx Hy).
Qed.

Lemma sprintf_vector_int8 v :
  int8_range (MV.x v) → int8_range (MV.y v) → is_Some (sprintf_vector v).
Proof.
  intros Hx Hy. unfold sprintf_vector. cbv zeta.
  pose proof (int8_check_spec _ _ pretty_int8_table_checked Hx) as Hlx.
  pose proof (int8_check_spec _ _ pretty_int8_table_checked Hy) as Hly.
  cbv beta in Hlx, Hly.
  apply bool_decide_eq_true_1 in Hlx. apply bool_decide_eq_true_1 in Hly.
  rewrite bool_decide_eq_true_2; [done|].
  rewrite !length_append. cbn [String.length]. lia.
Qed.

Lemma load_elem_of {A} (buf : list A) i v : load buf i = Some v → v ∈ buf.
Proof.
  unfold load. case_bool_decide; [|done]. apply list_elem_of_lookup_2.
Qed.

Lemma print_motion_vectors_length (mv : list MVector) w h :
  0 ≤ w → 0 ≤ h → w * h ≤ Z.of_nat (length mv) →
  Forall mv_in_range mv →
  ∃ out,
    print_motion_vectors mv w h = Some out ∧
    Z.of_nat (String.length out) = 41 + h * (7 * w + 1) + 1.
Proof.
  intros Hw Hh Hlen Hmv. unfold print_motion_vectors. cbv zeta.
  match goal with |- context [for_range ?lo ?hi ?body ?s] =>
    destruct (for_range_inv (λ idy st, print_inv w idy 0 st) body lo hi s)
      as ([out pos] & -> & Hpos & Hout); [lia|by split| |]
  end.
  - intros idy st Hidy Hinv.
    match goal with |- context [for_range ?lo ?hi ?body ?s] =>
      destruct (for_range_inv (λ idx st, print_inv w idy idx st) body lo hi s)
        as ([out pos] & -> & Hpos & Hout); [lia|done| |]
    end.
    + intros idx [out pos] Hidx [Hpos Hout]. cbn [fst snd] in Hpos, Hout.
      destruct (load_Some mv pos) as [v Hv]; [nia|].
      rewrite Hv. cbn [mbind option_bind].
      rewrite Forall_forall in Hmv.
      destruct (sprintf_vector_in_range v) as (stemp & -> & H7 & _).
      { apply Hmv. by eapply load_elem_of. }
      cbn [mbind option_bind]. eexists; split; [done|].
      split; cbn [fst snd]; [lia|]. rewrite length_append, H7. lia.
    + cbn [fst snd] in Hpos, Hout. cbn [mbind option_bind].
      eexists; split; [done|]. split; cbn [fst snd]; [lia|].
      rewrite length_append. cbn [String.length newline]. lia.
  - cbn [fst snd] in Hpos, Hout. cbn [mbind option_bind].
    eexists; split; [done|].
    rewrite length_append. cbn [String.length newline]. lia.
Qed.

(** The text of the printer, cell by cell. *)

Lemma append_assoc (s1 s2 s3 : string) :
  (s1 +:+ s2) +:+ s3 = s1 +:+ (s2 +:+ s3).
Proof.
  induction s1 as [|a s1 IH]; [done|].
  change (String a ((s1 +:+ s2) +:+ s3) = String a (s1 +:+ (s2 +:+ s3))).
  by f_equal.
Qed.

Lemma append_nil_r (s : string) : s +:+ EmptyString = s.
Proof.
  induction s as [|a s IH]; [done|].
  change (String a (s +:+ EmptyString) = String a s). by f_equal.
Qed.

Lemma concat_strings_snoc (l : list string) (s : string) :
  concat_strings (l ++ [s]) = concat_strings l +:+ s.
Proof.
  induction l as [|t l IH].
  - cbn [app concat_strings foldr]. apply append_nil_r.
  - change (t +:+ concat_strings (l ++ [s]) = (t +:+ concat_strings l) +:+ s).
    by rewrite IH, append_assoc.
Qed.

Lemma length_concat_strings (l : list string) (n : nat) :
  Forall (λ s, String.length s = n) l →
  String.length (concat_strings l) = (n * length l)%nat.
Proof.
  induction 1 as [|s l Hs _ IH]; [cbn; lia|].
  change (String.length (s +:+ concat_strings l) = (n * S (length l))%nat).
  rewrite length_append, IH, Hs. lia.
Qed.

Lemma newline_free_append (s1 s2 : string) :
  newline_free (s1 +:+ s2) = newline_free s1 && newline_free s2.
Proof.
  induction s1 as [|a s1 IH]; [done|].
  change (negb (Ascii.eqb a "010"%char) && newline_free (s1 +:+ s2)
          = negb (Ascii.eqb a "010"%char) && newline_free s1
            && newline_free s2).
  by rewrite IH, andb_assoc.
Qed.

Lemma newline_free_concat_strings (l : list string) :
  Forall (λ s, newline_free s = true) l →
  newline_free (concat_strings l) = true.
Proof.
  induction 1 as [|s l Hs _ IH]; [done|].
  change (newline_free (s +:+ concat_strings l) = true).
  by rewrite newline_free_append, Hs, IH.
Qed.

Lemma sprintf_vector_Some v stemp :
  sprintf_vector v = Some stemp → printf_7s stemp = cell_text v.
Proof.
  unfold sprintf_vector, cell_text. cbv zeta.
  case_bool_decide; [|done]. by intros [= <-].
Qed.

Lemma newline_free_table_checked :
  displacement_pairs_check (λ x y, newline_free (cell_text (MV.mk x y)))
  = true.
Proof. vm_cast_no_check (eq_refl true). Qed.

Lemma cell_text_in_range v :
  mv_in_range v →
  String.length (cell_text v) = 7%nat ∧ newline_free (cell_text v) = true.
Proof.
  intros Hv. split.
  - destruct (sprintf_vector_in_range v Hv) as (stemp & Hs & H7 & _).
    by rewrite <- (sprintf_vector_Some v stemp Hs).
  - destruct v as [x y]. destruct Hv as [Hx Hy]. cbn [MV.x MV.y] in Hx, Hy.
    exact (displacement_pairs_check_spec _ x y newline_free_table_checked
             Hx Hy).
Qed.

Lemma field_row_lookup (mv : list MVector) w idy idx :
  0 ≤ w → 0 ≤ idy → 0 ≤ idx < w →
  field_row mv w idy !! Z.to_nat idx = mv !! Z.to_nat (idy * w + idx).
Proof.
  intros Hw Hidy Hidx. unfold field_row.
  rewrite lookup_take_lt by lia. rewrite lookup_drop. f_equal. nia.
Qed.

Lemma length_field_row (mv : list MVector) w h idy :
  0 ≤ w → w * h ≤ Z.of_nat (length mv) → 0 ≤ idy < h →
  Z.of_nat (length (field_row mv w idy)) = w.
Proof.
  intros Hw Hlen Hidy. unfold field_row.
  rewrite length_take, length_drop. nia.
Qed.

Lemma print_motion_vectors_table (mv : list MVector) w h :
  0 ≤ w → 0 ≤ h → w * h ≤ Z.of_nat (length mv) →
  Forall mv_in_range mv →
  print_motion_vectors mv w h = Some (table_text mv w h) ∧
  (∀ idy, 0 ≤ idy < h →
     Z.of_nat (String.length (row_text mv w idy)) = 7 * w ∧
     newline_free (row_text mv w idy) = true ∧
     Z.of_nat (length (field_row mv w idy)) = w ∧
     (∀ idx, 0 ≤ idx < w →
        field_row mv w idy !! Z.to_nat idx
        = mv !! Z.to_nat (idy * w + idx)) ∧
     Forall (λ v, String.length (cell_text v) = 7%nat) (field_row mv w idy)) ∧
  Z.of_nat (String.length (table_text mv w h)) = 41 + h * (7 * w + 1) + 1.
Proof.
  intros Hw Hh Hlen Hmv.
  assert (print_motion_vectors mv w h = Some (table_text mv w h)) as Hrun.
  { unfold print_motion_vectors. cbv zeta. fold header.
    match goal with |- context [for_range ?lo ?hi ?body ?s] =>
      destruct (for_range_inv (λ idy st, table_inv mv w idy 0 st)
                  body lo hi s)
        as ([out pos] & -> & Hpos & Hout); [lia| | |]
    end.
    - split; [cbn [snd]; lia|]. cbn [fst]. unfold seqZ.
      cbn [Z.to_nat seq fmap list_fmap take concat_strings foldr].
      change (EmptyString +:+ EmptyString) with EmptyString.
      by rewrite append_nil_r.
    - intros idy st Hidy Hinv.
      match goal with |- context [for_range ?lo ?hi ?body ?s] =>
        destruct (for_range_inv (λ idx st, table_inv mv w idy idx st)
                    body lo hi s)
          as ([out pos] & -> & Hpos & Hout); [lia|done| |]
      end.
      + intros idx [out pos] Hidx [Hpos Hout]. cbn [fst snd] in Hpos, Hout.
        destruct (load_Some mv pos) as [v Hv]; [nia|].
        rewrite Hv. cbn [mbind option_bind].
        rewrite Forall_forall in Hmv.
        destruct (sprintf_vector_in_range v) as (stemp & Hs & _).
        { apply Hmv. by eapply load_elem_of. }
        rewrite Hs. cbn [mbind option_bind]. eexists; split; [done|].
        split; cbn [fst snd]; [lia|].
        rewrite (sprintf_vector_Some v stemp Hs), Hout.
        replace (Z.to_nat (idx + 1)) with (S (Z.to_nat idx)) by lia.
        rewrite (take_S_r _ _ v).
        * rewrite fmap_app. cbn [fmap list_fmap].
          by rewrite concat_strings_snoc, !append_assoc.
        * rewrite lookup_drop.
          replace (Z.to_nat (idy * w) + Z.to_nat idx)%nat
            with (Z.to_nat pos) by nia.
          unfold load in Hv. by rewrite bool_decide_eq_true_2 in Hv by nia.
      + cbn [fst snd] in Hpos, Hout. cbn [mbind option_bind].
        eexists; split; [done|]. split; cbn [fst snd]; [lia|].
        rewrite Hout.
        rewrite (seqZ_app 0 idy 1) by lia. rewrite fmap_app.
        change (seqZ (0 + idy) 1) with [0 + (0 + idy)].
        replace (0 + (0 + idy)) with idy by lia.
        cbn [fmap list_fmap Z.to_nat take concat_strings foldr].
        rewrite concat_strings_snoc, !append_assoc.
        fold (field_row mv w idy). fold (row_text mv w idy).
        by rewrite append_nil_r.
    - cbn [fst snd] in Hpos, Hout. cbn [mbind option_bind].
      rewrite Hout. cbn [Z.to_nat take fmap list_fmap concat_strings foldr].
      unfold table_text. by rewrite append_nil_r, !append_assoc. }
  split; [done|]. split.
  - intros idy Hidy.
    pose proof (length_field_row mv w h idy Hw Hlen Hidy) as Hl.
    assert (Forall mv_in_range (field_row mv w idy)) as Hrow
      by (by apply Forall_take, Forall_drop).
    assert (Forall (λ s, String.length s = 7%nat)
              (cell_text <$> field_row mv w idy)) as H7.
    { apply Forall_fmap. eapply Forall_impl; [exact Hrow|].
      intros v Hv. by apply cell_text_in_range. }
    split_and!.
    + unfold row_text. rewrite (length_concat_strings _ 7 H7), length_fmap.
      lia.
    + apply newline_free_concat_strings, Forall_fmap.
      eapply Forall_impl; [exact Hrow|].
      intros v Hv. by apply cell_text_in_range.
    + done.
    + intros idx Hidx. apply field_row_lookup; lia.
    + eapply Forall_impl; [exact Hrow|].
      intros v Hv. by apply cell_text_in_range.
  - destruct (print_motion_vectors_length mv w h Hw Hh Hlen Hmv)
      as (out & Hout & Hol).
    rewrite Hrun in Hout. by injection Hout as <-.
Qed.

(** X23.  A field whose vectors have components in [-16, 15], as
    [estimateMotion] produces them, prints as a table: the text is the
    header of 41 characters, then [h] rows, each of exactly [7 * w]
    characters followed by a newline, and a last newline.  Row [idy] is
    the seven-character fields of the vectors [mv[idy * w]] to
    [mv[idy * w + w - 1]], in this order, and holds no newline. *)
Theorem print_motion_vectors_aligned (mv : list MVector) w h :
  0 ≤ w → 0 ≤ h → w * h ≤ Z.of_nat (length mv) →
  Forall mv_in_range mv →
  print_motion_vectors mv w h = Some (table_text mv w h) ∧
  (∀ idy, 0 ≤ idy < h →
     Z.of_nat (String.length (row_text mv w idy)) = 7 * w ∧
     newline_free (row_text mv w idy) = true ∧
     Z.of_nat (length (field_row mv w idy)) = w ∧
     (∀ idx, 0 ≤ idx < w →
        field_row mv w idy !! Z.to_nat idx
        = mv !! Z.to_nat (idy * w + idx)) ∧
     Forall (λ v, String.length (cell_text v) = 7%nat) (field_row mv w idy)) ∧
  Z.of_nat (String.length (table_text mv w h)) = 41 + h * (7 * w + 1) + 1.
Proof.
  intros Hw Hh Hlen Hmv.
  destruct (print_motion_vectors_table mv w h Hw Hh Hlen Hmv)
    as (Hrun & Hrows & Htotal).
  split_and!; [exact Hrun|exact Hrows|exact Htotal].
Qed.

Lemma print_motion_vectors_aligned_witness :
  print_motion_vectors field64 8 8 = Some (table_text field64 8 8) ∧
  (∀ idy, 0 ≤ idy < 8 →
     Z.of_nat (String.length (row_text field64 8 idy)) = 7 * 8 ∧
     newline_free (row_text field64 8 idy) = true ∧
     Z.of_nat (length (field_row field64 8 idy)) = 8 ∧
     (∀ idx, 0 ≤ idx < 8 →
        field_row field64 8 idy !! Z.to_nat idx
        = field64 !! Z.to_nat (idy * 8 + idx)) ∧
     Forall (λ v, String.length (cell_text v) = 7%nat)
       (field_row field64 8 idy)) ∧
  Z.of_nat (String.length (table_text field64 8 8)) = 41 + 8 * (7 * 8 + 1) + 1.
Proof.
  apply (print_motion_vectors_aligned field64 8 8); [lia|lia|by vm_compute|].
  unfold field64, mv_in_range.
  apply Forall_forall. intros v Hv.
  apply list_elem_of_lookup in Hv as [i Hi].
  repeat (apply list_lookup_insert_Some in Hi as [(_ & <- & _)|[_ Hi]];
          [cbn; lia|]).
  apply lookup_replicate in Hi as [-> _]. cbn. lia.
Defined.

(** X24.  The seven-character field of a vector with components in
    [-16, 15] starts with a space unless both components are -10 or less:
    such a vector, seven characters long by itself, is printed right
    against the one before it. *)
Theorem print_token_separator v :
  mv_in_range v →
  ∃ stemp,
    sprintf_vector v = Some stemp ∧
    String.length (printf_7s stemp) = 7%nat ∧
    (String.get 0 (printf_7s stemp) = Some " "%char
     ↔ ¬ (MV.x v ≤ -10 ∧ MV.y v ≤ -10)).
Proof. apply sprintf_vector_in_range. Qed.

Lemma print_token_separator_witness :
  ∃ stemp,
    sprintf_vector (MV.mk (-16) (-16)) = Some stemp ∧
    String.length (printf_7s stemp) = 7%nat ∧
    (String.get 0 (printf_7s stemp) = Some " "%char
     ↔ ¬ (MV.x (MV.mk (-16) (-16)) ≤ -10 ∧ MV.y (MV.mk (-16) (-16)) ≤ -10)).
Proof.
  apply (print_token_separator (MV.mk (-16) (-16))).
  unfold mv_in_range. cbn. lia.
Defined.

Lemma length_spaces n : String.length (spaces n) = n.
Proof. induction n as [|n IH]; [done|]. cbn [spaces String.length]. by rewrite IH. Qed.

Lemma length_printf_7s stemp : (7 ≤ String.length (printf_7s stemp))%nat.
Proof. unfold printf_7s. rewrite length_append, length_spaces. lia. Qed.

(** X25.  On a field of [int8] vectors that holds [w * h] entries the
    printer returns: no text overflows the 16 bytes of [stemp], and since
    ["%7s"] never cuts, every row takes at least [7 * w] characters. *)
Theorem print_motion_vectors_returns (mv : list MVector) w h :
  0 ≤ w → 0 ≤ h → w * h ≤ Z.of_nat (length mv) →
  Forall (λ v, int8_range (MV.x v) ∧ int8_range (MV.y v)) mv →
  ∃ out,
    print_motion_vectors mv w h = Some out ∧
    41 + h * (7 * w + 1) + 1 ≤ Z.of_nat (String.length out).
Proof.
  intros Hw Hh Hlen Hmv. unfold print_motion_vectors. cbv zeta.
  match goal with |- context [for_range ?lo ?hi ?body ?s] =>
    destruct (for_range_inv
      (λ idy (st : string * Z),
         st.2 = idy * w ∧
         41 + idy * (7 * w + 1) ≤ Z.of_nat (String.length st.1))
      body lo hi s)
      as ([out pos] & -> & Hpos & Hout); [lia|by split| |]
  end.
  - intros idy st Hidy Hinv.
    match goal with |- context [for_range ?lo ?hi ?body ?s] =>
      destruct (for_range_inv
        (λ idx (st : string * Z),
           st.2 = idy * w + idx ∧
           41 + idy * (7 * w + 1) + 7 * idx ≤ Z.of_nat (String.length st.1))
        body lo hi s)
        as ([out pos] & -> & Hpos & Hout); [lia| | |]
    end.
    + destruct Hinv. split; lia.
    + intros idx [out pos] Hidx [Hpos Hout]. cbn [fst snd] in Hpos, Hout.
      destruct (load_Some mv pos) as [v Hv]; [nia|].
      rewrite Hv. cbn [mbind option_bind].
      rewrite Forall_forall in Hmv.
      destruct (Hmv v (load_elem_of _ _ _ Hv)) as [Hx Hy].
      destruct (sprintf_vector_int8 v Hx Hy) as [stemp ->].
      cbn [mbind option_bind]. eexists; split; [done|].
      split; cbn [fst snd]; [lia|]. rewrite length_append.
      pose proof (length_printf_7s stemp). lia.
    + cbn [fst snd] in Hpos, Hout. cbn [mbind option_bind].
      eexists; split; [done|]. split; cbn [fst snd]; [lia|].
      rewrite length_append. cbn [String.length newline]. lia.
  - cbn [fst snd] in Hpos, Hout. cbn [mbind option_bind].
    eexists; split; [done|].
    rewrite length_append. cbn [String.length newline]. lia.
Qed.

Lemma print_motion_vectors_returns_witness :
  ∃ out,
    print_motion_vectors [MV.mk (-128) (-128); MV.mk 127 0] 2 1 = Some out ∧
    41 + 1 * (7 * 2 + 1) + 1 ≤ Z.of_nat (String.length out).
Proof.
  apply (print_motion_vectors_returns [MV.mk (-128) (-128); MV.mk 127 0] 2 1);
    [lia|lia|cbn [length]; lia|].
  unfold int8_range. repeat constructor; cbn; lia.
Defined.

Lemma for_loop_Some_steps {St} (I : Z → St → Prop) body n i (s s' : St) :
  for_loop n i body s = Some s' →
  I i s →
  (∀ j t t', i ≤ j < i + Z.of_nat n → I j t → body j t = Some t' →
     I (j + 1) t') →
  ∀ j, i ≤ j < i + Z.of_nat n → ∃ t t', I j t ∧ body j t = Some t'.
Proof.
  revert i s. induction n as [|n IH]; intros i s Hrun Hi Hstep j Hj; [lia|].
  cbn [for_loop] in Hrun. destruct (body i s) as [t|] eqn:Hb; [|done].
  cbn [mbind option_bind] in Hrun.
  destruct (decide (j = i)) as [->|]; [by exists s, t|].
  apply (IH (i + 1) t Hrun); [|intros k u u' Hk; apply Hstep; lia|lia].
  apply (Hstep i s); [lia|done|done].
Qed.

Lemma for_range_Some_steps {St} (I : Z → St → Prop) body lo hi (s s' : St) :
  for_range lo hi body s = Some s' →
  I lo s →
  (∀ j t t', lo ≤ j < hi → I j t → body j t = Some t' → I (j + 1) t') →
  ∀ j, lo ≤ j < hi → ∃ t t', I j t ∧ body j t = Some t'.
Proof.
  unfold for_range. intros Hrun Hi Hstep j Hj.
  apply (for_loop_Some_steps I body _ lo s s' Hrun Hi); [|lia].
  intros k t t' Hk. apply Hstep. lia.
Qed.

(** X26.  The printer trusts [w] and [h]: if the field holds fewer than
    [w * h] entries it reads past the end. *)
Theorem print_motion_vectors_reads_past_end (mv : list MVector) w h :
  0 ≤ w → Z.of_nat (length mv) < w * h →
  print_motion_vectors mv w h = None.
Proof.
  intros Hw Hlen.
  destruct (print_motion_vectors mv w h) as [out|] eqn:Hrun; [exfalso|done].
  unfold print_motion_vectors in Hrun. cbv zeta in Hrun.
  match type of Hrun with context [for_range 0 h ?body ?s] =>
    destruct (for_range 0 h body s) as [[o p]|] eqn:Hrows; [|done]
  end.
  clear Hrun.
  assert (w ≠ 0) as Hw0 by (intros ->; lia).
  assert (0 < w) as Hw' by lia.
  assert (0 < h) as Hh by nia.
  pose proof (Z.div_mod (Z.of_nat (length mv)) w ltac:(lia)) as Hdm.
  pose proof (Z.mod_pos_bound (Z.of_nat (length mv)) w Hw') as Hmod.
  set (idy0 := Z.of_nat (length mv) `div` w) in *.
  set (idx0 := Z.of_nat (length mv) `mod` w) in *.
  assert (0 ≤ idy0 < h) as Hidy0 by nia.
  destruct (for_range_Some_steps (λ idy (st : string * Z), st.2 = idy * w)
              _ _ _ _ _ Hrows) with (j := idy0) as ([o1 p1] & t' & Hp1 & Hrow);
    [done| |done|].
  - intros idy [o1 p1] t' _ Hp1 Hrow. cbn [fst snd] in Hp1.
    match type of Hrow with context [for_range 0 w ?body ?s] =>
      destruct (for_range 0 w body s) as [[o2 p2]|] eqn:Hcols; [|done]
    end.
    injection Hrow as <-. cbn [snd].
    pose proof (for_range_Some_inv
      (λ idx (st : string * Z), st.2 = idy * w + idx) _ _ _ _ _ Hcols) as Hend.
    cbn [fst snd] in Hend. rewrite Hend; [lia|lia|].
    intros idx [o3 p3] u' _ Hp3 Hpix. cbn [fst snd] in Hp3.
    destruct (load mv p3) as [v|]; [|done].
    cbn [mbind option_bind] in Hpix.
    destruct (sprintf_vector v); [|done]. injection Hpix as <-. cbn. lia.
  - cbn [fst snd] in Hp1.
    match type of Hrow with context [for_range 0 w ?body ?s] =>
      destruct (for_range 0 w body s) as [[o2 p2]|] eqn:Hcols; [|done]
    end.
    destruct (for_range_Some_steps
      (λ idx (st : string * Z), st.2 = idy0 * w + idx) _ _ _ _ _ Hcols)
      with (j := idx0) as ([o3 p3] & u' & Hp3 & Hpix); [cbn; lia| |done|].
    + intros idx [o3 p3] u' _ Hp3 Hpix. cbn [fst snd] in Hp3.
      destruct (load mv p3) as [v|]; [|done].
      cbn [mbind option_bind] in Hpix.
      destruct (sprintf_vector v); [|done]. injection Hpix as <-. cbn. lia.
    + cbn [fst snd] in Hp3.
      rewrite (load_None mv p3) in Hpix by lia. done.
Qed.

Lemma print_motion_vectors_reads_past_end_witness :
  print_motion_vectors field3 2 2 = None.
Proof.
  apply (print_motion_vectors_reads_past_end field3 2 2);
    [lia|cbn [length field3]; lia].
Defined.

(** ** The stages together *)

Lemma quot_MSTEP_nonneg w : 0 ≤ w → 0 ≤ w `quot` MSTEP.
Proof. intros Hw. apply Z.quot_pos; [done|]. unfold MSTEP. lia. Qed.

(** X27.  The stages fit together: on two frames of [width * height]
    samples each the whole pipeline returns, with no read or write out of
    bounds in the filter, the search or the statistics; the field has
    [nx * ny] vectors, all with components in [-16, 15], [min] is 0, and
    the field prints as the table of [ny] rows, each of exactly [7 * nx]
    characters followed by a newline, after the header and before a last
    newline. *)
Theorem pipeline_returns frame_1 frame_2 width height :
  0 ≤ width → 0 ≤ height →
  Z.of_nat (length frame_1) = width * height →
  Z.of_nat (length frame_2) = width * height →
  ∃ mv mean max,
    pipeline frame_1 frame_2 width height = Some (mv, (mean, fzero, max)) ∧
    Z.of_nat (length mv) = (width `quot` MSTEP) * (height `quot` MSTEP) ∧
    Forall mv_in_range mv ∧
    print_motion_vectors mv (width `quot` MSTEP) (height `quot` MSTEP)
      = Some (table_text mv (width `quot` MSTEP) (height `quot` MSTEP)) ∧
    (∀ idy, 0 ≤ idy < height `quot` MSTEP →
       Z.of_nat (String.length (row_text mv (width `quot` MSTEP) idy))
         = 7 * (width `quot` MSTEP) ∧
       newline_free (row_text mv (width `quot` MSTEP) idy) = true ∧
       Z.of_nat (length (field_row mv (width `quot` MSTEP) idy))
         = width `quot` MSTEP) ∧
    Z.of_nat (String.length
                (table_text mv (width `quot` MSTEP) (height `quot` MSTEP)))
      = 41 + (height `quot` MSTEP) * (7 * (width `quot` MSTEP) + 1) + 1.
Proof.
  intros Hw Hh H1 H2.
  pose proof (quot_MSTEP_nonneg width Hw) as Hnx.
  pose proof (quot_MSTEP_nonneg height Hh) as Hny.
  destruct (median3x3_invariant width height (λ _, True) frame_1)
    as (f1 & Hf1 & _ & Hl1); [done..|].
  destruct (median3x3_invariant width height (λ _, True) frame_2)
    as (f2 & Hf2 & _ & Hl2); [done..|].
  assert (Z.of_nat (length f1) = width * height) as H1' by lia.
  assert (Z.of_nat (length f2) = width * height) as H2' by lia.
  destruct (full_search_spec f1 f2 width height H1' H2' _ _ eq_refl eq_refl
              (zero_field width height) (length_zero_field width height))
    as (mv & Hrun & Hlen & _ & _ & Hrange).
  rewrite length_zero_field in Hlen.
  assert (Z.of_nat (length mv)
          = (width `quot` MSTEP) * (height `quot` MSTEP)) as Hlen' by nia.
  assert (Forall mv_in_range mv) as Hmv.
  { apply Forall_lookup. intros k v Hk.
    destruct (Hrange k v Hk) as [Hz|Hr]; [|done].
    apply zero_field_lookup in Hz as ->. unfold mv_in_range. cbn. lia. }
  destruct (compute_statistics_min mv) as (mean & max & Hstats).
  { eapply Forall_impl; [exact Hmv|].
    intros v [Hx Hy]. unfold int8_range. lia. }
  rewrite Hlen' in Hstats.
  destruct (print_motion_vectors_table mv (width `quot` MSTEP)
              (height `quot` MSTEP)) as (Hout & Hrows & Htotal);
    [lia..|done|].
  exists mv, mean, max. split_and!; [|done|done|done| |done].
  - by apply (pipeline_stages _ _ _ _ f1 f2).
  - intros idy Hidy.
    destruct (Hrows idy Hidy) as (H7 & Hnl & Hl & _). done.
Qed.

Lemma pipeline_returns_witness :
  ∃ mv mean max,
    pipeline frame64 frame64 64 64 = Some (mv, (mean, fzero, max)) ∧
    Z.of_nat (length mv) = (64 `quot` MSTEP) * (64 `quot` MSTEP) ∧
    Forall mv_in_range mv ∧
    print_motion_vectors mv (64 `quot` MSTEP) (64 `quot` MSTEP)
      = Some (table_text mv (64 `quot` MSTEP) (64 `quot` MSTEP)) ∧
    (∀ idy, 0 ≤ idy < 64 `quot` MSTEP →
       Z.of_nat (String.length (row_text mv (64 `quot` MSTEP) idy))
         = 7 * (64 `quot` MSTEP) ∧
       newline_free (row_text mv (64 `quot` MSTEP) idy) = true ∧
       Z.of_nat (length (field_row mv (64 `quot` MSTEP) idy))
         = 64 `quot` MSTEP) ∧
    Z.of_nat (String.length
                (table_text mv (64 `quot` MSTEP) (64 `quot` MSTEP)))
      = 41 + (64 `quot` MSTEP) * (7 * (64 `quot` MSTEP) + 1) + 1.
Proof.
  apply (pipeline_returns frame64 frame64 64 64);
    [lia|lia|unfold frame64; rewrite length_replicate; lia..].
Defined.
